(** * model-styler: scene manager, ray casting and first-person camera

    A shallow embedding of the engine core of the model-styler repository:

    - [RayCast]      (engine/core/RayCast.js): the registry of pickable
      objects, keyed by owner name, and the list handed to the
      intersection test;
    - [SceneManager] (engine/core/SceneManager.js): the registry of named
      scene objects, the deferred mailbox, the set of objects awaiting
      readiness and the body of the render loop;
    - [FirstPerson]  (engine/camera/FirstPersonCameraManager.js): the
      cursor-drag handler of the first-person camera.

    Conventions of the embedding.

    - A JavaScript [Map] iterates in insertion order, and the code relies
      on it ([keys()], [values()]); such maps are association lists
      ([JSMap]).  The mailbox is only ever read, written and deleted by
      key, so it is a [gmap].
    - The hooks of a scene object ([onMessage], [onSceneStart], ...) and
      the calls into the renderer are opaque to the manager: each call is
      recorded, in order, in a log of events carried by the state.  A hook
      is assumed not to call back into the manager while it runs.
    - JavaScript numbers are idealised as exact rationals ([Q]); there is
      no NaN and no rounding.
    - A JavaScript [TypeError] (a method call on [undefined] or [null], or
      the call of a method an object does not have) is the [TypeError]
      outcome of the [result] type.  A run ends at its first throw: the
      state a throwing call leaves behind is not modelled.
    - The calls on the collaborators (hooks, renderer, camera manager,
      intersection test of three.js) are taken to return. *)

From Stdlib Require Import QArith Lqa Sorted.
From stdpp Require Import gmap strings list fin_maps.

Local Open Scope string_scope.
Local Open Scope list_scope.

(** ** Outcomes of calls that may throw *)

Inductive result (A : Type) : Type :=
| Ok (a : A)
| TypeError.
Arguments Ok {A} a.
Arguments TypeError {A}.

#[global] Instance result_ret : MRet result := fun _ a => Ok a.

#[global] Instance result_bind : MBind result := fun _ _ k r =>
  match r with
  | Ok a => k a
  | TypeError => TypeError
  end.

(** ** JavaScript [Map] with string keys, in insertion order *)

Module JSMap.
Section Ops.
Context {V : Type}.

(** [map.get(k)]; [None] is [undefined]. *)
Fixpoint get (k : string) (m : list (string * V)) : option V :=
  match m with
  | [] => None
  | (k', v) :: r => if decide (k' = k) then Some v else get k r
  end.

(** [map.set(k, v)]: an existing key keeps its place, a new key goes
    last. *)
Fixpoint set (k : string) (v : V) (m : list (string * V)) : list (string * V) :=
  match m with
  | [] => [(k, v)]
  | (k', v') :: r =>
      if decide (k' = k) then (k, v) :: r else (k', v') :: set k v r
  end.

(** [map.delete(k)]. *)
Fixpoint delete (k : string) (m : list (string * V)) : list (string * V) :=
  match m with
  | [] => []
  | (k', v') :: r =>
      if decide (k' = k) then r else (k', v') :: delete k r
  end.

Definition keys (m : list (string * V)) : list string := m.*1.
Definition values (m : list (string * V)) : list V := m.*2.
Definition size (m : list (string * V)) : nat := length m.
Definition has (k : string) (m : list (string * V)) : bool :=
  bool_decide (is_Some (get k m)).
End Ops.
End JSMap.

(** ** JavaScript arrays: [indexOf] and [splice(start, 1)] *)

Section JSArray.
Context {A : Type} `{EqDecision A}.

Fixpoint indexOf_from (x : A) (l : list A) (i : Z) : Z :=
  match l with
  | [] => (-1)%Z
  | y :: r => if decide (y = x) then i else indexOf_from x r (i + 1)%Z
  end.

(** [l.indexOf(x)]: the first index holding [x], or [-1]. *)
Definition indexOf (x : A) (l : list A) : Z := indexOf_from x l 0%Z.

(** [l.splice(start, 1)]: a negative [start] counts from the end, so
    [splice(-1, 1)] drops the last element. *)
Definition splice1 (start : Z) (l : list A) : list A :=
  let len := Z.of_nat (length l) in
  let s := if (start <? 0)%Z then Z.max (len + start) 0 else Z.min start len in
  take (Z.to_nat s) l ++ drop (S (Z.to_nat s)) l.
End JSArray.

(** ** RayCast *)

(** A three.js object is known by its identity. *)
Definition Object3D := nat.

(** What an element of the array [raycastObjects] can be: a three.js
    object, or the very array that [raycastObjectMap] stores for an owner
    (an alias: a later [push] on the owner's array shows through it). *)
Inductive Pickable : Type :=
| Obj (o : Object3D)
| Arr (owner : string).

#[global] Instance Pickable_eq_dec : EqDecision Pickable.
Proof. solve_decision. Defined.

Record RayCast : Type := mkRayCast {
  raycastObjectMap : list (string * list Object3D);
  raycastObjects : list Pickable
}.

Module RayCastOps.

(** [new RayCast()] *)
Definition empty : RayCast :=
  {| raycastObjectMap := []; raycastObjects := [] |}.

(** [add(name, raycastObject)] *)
Definition add (name : string) (raycastObject : Object3D) (rc : RayCast) : RayCast :=
  let objects := JSMap.get name (raycastObjectMap rc) in
  {| raycastObjectMap :=
       match objects with
       | Some objs => JSMap.set name (objs ++ [raycastObject]) (raycastObjectMap rc)
       | None => JSMap.set name [raycastObject] (raycastObjectMap rc)
       end;
     raycastObjects := raycastObjects rc ++ [Obj raycastObject] |}.

(** The loop of [remove]: one [splice] per object of the owner. *)
Definition spliceAll (objects : list Object3D) (flat : list Pickable) : list Pickable :=
  foldl (fun fl raycastObject => splice1 (indexOf (Obj raycastObject) fl) fl)
        flat objects.

(** [remove(name)].  The spliced array is overwritten by
    [Array.from(this.raycastObjectMap.values())]: one element per owner
    of the map, each the owner's own array.  No entry of the map is
    deleted. *)
Definition remove (name : string) (rc : RayCast) : RayCast :=
  match JSMap.get name (raycastObjectMap rc) with
  | Some objects =>
      let _spliced := spliceAll objects (raycastObjects rc) in
      {| raycastObjectMap := raycastObjectMap rc;
         raycastObjects := Arr <$> JSMap.keys (raycastObjectMap rc) |}
  | None => rc
  end.

(** The JavaScript value an element of [raycastObjects] stands for. *)
Definition resolve (rc : RayCast) (p : Pickable) : Object3D + list Object3D :=
  match p with
  | Obj o => inl o
  | Arr k => inr (default [] (JSMap.get k (raycastObjectMap rc)))
  end.

(** The array handed to [intersectObjects]. *)
Definition queried (rc : RayCast) : list (Object3D + list Object3D) :=
  resolve rc <$> raycastObjects rc.

(** The objects the array holds, directly or inside an owner's array. *)
Definition held (rc : RayCast) : list Object3D :=
  v ← queried rc; match v with inl o => [o] | inr l => l end.

(** The array is flat when each of its elements is an object. *)
Definition isFlat (rc : RayCast) : bool :=
  forallb (fun p => match p with Obj _ => true | Arr _ => false end)
          (raycastObjects rc).

End RayCastOps.

(** ** Scene objects *)

(** An entry of [getDrawables()]. *)
Record Drawable : Type := mkDrawable {
  drawable_object : Object3D;
  isRayCastable : bool
}.

(** An entry of [getLights()]. *)
Record Light : Type := mkLight {
  light_object : Object3D
}.

(** A scene object, as the manager sees it: its name and the answers of
    its query hooks.  Readiness changes while an object is registered (an
    asset finishes loading), so [isReady()] is not a field: every
    operation that calls it takes the answers of the moment as a
    [Readiness].  [isCameraManager] tells whether the object is a camera
    manager, that is, whether it has the methods [onActive], [getCamera],
    [setAspectRatio] and [updateMatrices] the manager calls on the active
    camera; class [SceneObject] itself has none of them. *)
Record SceneObject : Type := mkSceneObject {
  name : string;
  isDrawable : bool;
  getDrawables : list Drawable;
  getLights : list Light;
  isCameraManager : bool
}.

Definition Readiness : Type := SceneObject -> bool.

#[global] Instance Drawable_eq_dec : EqDecision Drawable.
Proof. solve_decision. Defined.
#[global] Instance Light_eq_dec : EqDecision Light.
Proof. solve_decision. Defined.
#[global] Instance SceneObject_eq_dec : EqDecision SceneObject.
Proof. solve_decision. Defined.

(** The payload of a message ([any] in the source). *)
Inductive Data : Type :=
| Null
| Str (s : string)
| Num (z : Z).

(** A queued message, [{ from, to, data }]. *)
Record Message : Type := mkMessage {
  msg_from : string;
  msg_to : string;
  msg_data : Data
}.

(** The calls the manager makes on its collaborators: the hooks of scene
    objects, the camera manager and the renderer. *)
Inductive Event : Type :=
| OnMessage (target : SceneObject) (senderName : string) (data : Data)
| OnSceneStart (target : SceneObject)
| OnSceneRender (target : SceneObject)
| OnSceneEnd (target : SceneObject)
| OnActive (camera : SceneObject)
| CameraSetAspectRatio (camera : SceneObject) (ratio : Q)
| CameraUpdateMatrices (camera : SceneObject)
| RendererAdd (object : Object3D) (hasLights : bool)
| RendererRemove (object : Object3D)
| RendererSetup (camera : SceneObject)
| RendererRender
| RendererOutline (objects : list Object3D) (camera : SceneObject).

Record SceneManager : Type := mkSceneManager {
  raycaster : RayCast;
  activeCameraManager : option SceneObject;
  sceneObjectMap : list (string * SceneObject);
  inactiveObjNameMap : list (string * unit);
  messageMap : gmap string (list Message);
  calls : list Event
}.

(** [window.innerWidth] and [window.innerHeight]. *)
Record Window : Type := mkWindow {
  innerWidth : Q;
  innerHeight : Q
}.

Module SceneManagerOps.

(** The state left by the constructor, before the first frame. *)
Definition initial : SceneManager :=
  {| raycaster := RayCastOps.empty;
     activeCameraManager := None;
     sceneObjectMap := [];
     inactiveObjNameMap := [];
     messageMap := ∅;
     calls := [] |}.

Definition emit (e : Event) (sm : SceneManager) : SceneManager :=
  {| raycaster := raycaster sm;
     activeCameraManager := activeCameraManager sm;
     sceneObjectMap := sceneObjectMap sm;
     inactiveObjNameMap := inactiveObjNameMap sm;
     messageMap := messageMap sm;
     calls := calls sm ++ [e] |}.

Definition withRaycaster (f : RayCast -> RayCast) (sm : SceneManager) : SceneManager :=
  {| raycaster := f (raycaster sm);
     activeCameraManager := activeCameraManager sm;
     sceneObjectMap := sceneObjectMap sm;
     inactiveObjNameMap := inactiveObjNameMap sm;
     messageMap := messageMap sm;
     calls := calls sm |}.

Definition withActiveCamera (c : option SceneObject) (sm : SceneManager) : SceneManager :=
  {| raycaster := raycaster sm;
     activeCameraManager := c;
     sceneObjectMap := sceneObjectMap sm;
     inactiveObjNameMap := inactiveObjNameMap sm;
     messageMap := messageMap sm;
     calls := calls sm |}.

Definition withSceneObjectMap
    (f : list (string * SceneObject) -> list (string * SceneObject))
    (sm : SceneManager) : SceneManager :=
  {| raycaster := raycaster sm;
     activeCameraManager := activeCameraManager sm;
     sceneObjectMap := f (sceneObjectMap sm);
     inactiveObjNameMap := inactiveObjNameMap sm;
     messageMap := messageMap sm;
     calls := calls sm |}.

Definition withInactive
    (f : list (string * unit) -> list (string * unit))
    (sm : SceneManager) : SceneManager :=
  {| raycaster := raycaster sm;
     activeCameraManager := activeCameraManager sm;
     sceneObjectMap := sceneObjectMap sm;
     inactiveObjNameMap := f (inactiveObjNameMap sm);
     messageMap := messageMap sm;
     calls := calls sm |}.

Definition withMessageMap
    (f : gmap string (list Message) -> gmap string (list Message))
    (sm : SceneManager) : SceneManager :=
  {| raycaster := raycaster sm;
     activeCameraManager := activeCameraManager sm;
     sceneObjectMap := sceneObjectMap sm;
     inactiveObjNameMap := inactiveObjNameMap sm;
     messageMap := f (messageMap sm);
     calls := calls sm |}.

(** One turn of the first loop of [addToScene]. *)
Definition addDrawable (sceneObject : SceneObject) (hasLights : bool)
    (sm : SceneManager) (drawable : Drawable) : SceneManager :=
  let sm1 := emit (RendererAdd (drawable_object drawable) hasLights) sm in
  if isRayCastable drawable
  then withRaycaster (RayCastOps.add (name sceneObject) (drawable_object drawable)) sm1
  else sm1.

(** [addToScene(sceneObject)] *)
Definition addToScene (sceneObject : SceneObject) (sm : SceneManager) : SceneManager :=
  let drawables := getDrawables sceneObject in
  let lights := getLights sceneObject in
  let sm1 := foldl (addDrawable sceneObject (bool_decide (0 < length lights))) sm drawables in
  foldl (fun s light => emit (RendererAdd (light_object light) false) s) sm1 lights.

(** One turn of the first loop of [removeFromScene]. *)
Definition removeDrawable (sceneObject : SceneObject)
    (sm : SceneManager) (drawable : Drawable) : SceneManager :=
  let sm1 := emit (RendererRemove (drawable_object drawable)) sm in
  if isRayCastable drawable
  then withRaycaster (RayCastOps.remove (name sceneObject)) sm1
  else sm1.

(** [removeFromScene(sceneObject)] *)
Definition removeFromScene (sceneObject : SceneObject) (sm : SceneManager) : SceneManager :=
  let drawables := getDrawables sceneObject in
  let lights := getLights sceneObject in
  let sm1 := foldl (removeDrawable sceneObject) sm drawables in
  foldl (fun s light => emit (RendererRemove (light_object light)) s) sm1 lights.

(** The call of [onMessage] that delivers a queued message. *)
Definition deliver (sceneObject : SceneObject) (message : Message) : Event :=
  OnMessage sceneObject (msg_from message) (msg_data message).

(** [checkForMessages(sceneObject)] *)
Definition checkForMessages (sceneObject : SceneObject) (sm : SceneManager) : SceneManager :=
  match messageMap sm !! name sceneObject with
  | Some messages =>
      withMessageMap (delete (name sceneObject))
        (foldl (fun s message => emit (deliver sceneObject message) s) sm messages)
  | None => sm
  end.

(** [register(sceneObject)].  The two calls of [isReady()] are taken to
    give the same answer. *)
Definition register (isReady : Readiness) (sceneObject : SceneObject)
    (sm : SceneManager) : SceneManager :=
  let sm1 := withSceneObjectMap (JSMap.set (name sceneObject) sceneObject) sm in
  let sm2 :=
    if isDrawable sceneObject && negb (isReady sceneObject)
    then withInactive (JSMap.set (name sceneObject) ()) sm1
    else if isReady sceneObject
         then emit (OnSceneStart sceneObject) (addToScene sceneObject sm1)
         else sm1 in
  checkForMessages sceneObject sm2.

(** [unregister(name)] *)
Definition unregister (n : string) (sm : SceneManager) : SceneManager :=
  match JSMap.get n (sceneObjectMap sm) with
  | Some sceneObject =>
      withSceneObjectMap (JSMap.delete n)
        (emit (OnSceneEnd sceneObject) (removeFromScene sceneObject sm))
  | None => sm
  end.

(** [broadcastTo(from, to, data)] *)
Definition broadcastTo (from to : string) (data : Data) (sm : SceneManager) : SceneManager :=
  match JSMap.get to (sceneObjectMap sm) with
  | Some sceneObject => emit (OnMessage sceneObject from data) sm
  | None =>
      let message := {| msg_from := from; msg_to := to; msg_data := data |} in
      match messageMap sm !! to with
      | None => withMessageMap (insert to [message]) sm
      | Some messages => withMessageMap (insert to (messages ++ [message])) sm
      end
  end.

(** The loop of [broadcastToAll] over the keys of the registry.  A key
    without an object would make [get(key).onMessage] throw. *)
Fixpoint broadcastKeys (from : string) (data : Data) (sceneObjectKeys : list string)
    (sm : SceneManager) : result SceneManager :=
  match sceneObjectKeys with
  | [] => Ok sm
  | sceneObjectKey :: rest =>
      if decide (sceneObjectKey ≠ from)
      then match JSMap.get sceneObjectKey (sceneObjectMap sm) with
           | Some sceneObject =>
               broadcastKeys from data rest (emit (OnMessage sceneObject from data) sm)
           | None => TypeError
           end
      else broadcastKeys from data rest sm
  end.

(** [broadcastToAll(from, data)] *)
Definition broadcastToAll (from : string) (data : Data) (sm : SceneManager)
    : result SceneManager :=
  broadcastKeys from data (JSMap.keys (sceneObjectMap sm)) sm.

(** [setActiveCamera(name)].  The object found is made the active camera
    whatever it is; when it is not a camera manager, the call of its
    [onActive] then throws. *)
Definition setActiveCamera (n : string) (sm : SceneManager) : result SceneManager :=
  match JSMap.get n (sceneObjectMap sm) with
  | Some cameraManager =>
      let sm1 := withActiveCamera (Some cameraManager) sm in
      if isCameraManager cameraManager
      then Ok (emit (RendererSetup cameraManager) (emit (OnActive cameraManager) sm1))
      else TypeError
  | None => Ok sm
  end.

(** [notifyObjects()] *)
Definition notifyObjects (sm : SceneManager) : SceneManager :=
  foldl (fun s sceneObject => emit (OnSceneRender sceneObject) s)
        sm (JSMap.values (sceneObjectMap sm)).

(** The loop of [queryReadyObjects] over the names awaiting readiness.
    The only change the loop makes to the map it iterates is to delete
    the name in hand, so it visits the names present at its start, in
    order.  A name without a registered object makes
    [sceneObject.isReady()] throw. *)
Fixpoint promote (isReady : Readiness) (inactiveObjNames : list string)
    (sm : SceneManager) : result SceneManager :=
  match inactiveObjNames with
  | [] => Ok sm
  | sceneObjectName :: rest =>
      match JSMap.get sceneObjectName (sceneObjectMap sm) with
      | Some sceneObject =>
          if isReady sceneObject
          then promote isReady rest
                 (withInactive (JSMap.delete sceneObjectName)
                    (emit (OnSceneStart sceneObject) (addToScene sceneObject sm)))
          else promote isReady rest sm
      | None => TypeError
      end
  end.

(** [queryReadyObjects()] *)
Definition queryReadyObjects (isReady : Readiness) (sm : SceneManager)
    : result SceneManager :=
  if bool_decide (0 < JSMap.size (inactiveObjNameMap sm))
  then promote isReady (JSMap.keys (inactiveObjNameMap sm)) sm
  else Ok sm.

(** The body of [renderLoop()], one frame.  The rescheduling through
    [requestAnimationFrame] is the caller's. *)
Definition renderLoop (window : Window) (isReady : Readiness) (sm : SceneManager)
    : result SceneManager :=
  match activeCameraManager sm with
  | Some cameraManager =>
      let sm1 := emit (CameraSetAspectRatio cameraManager
                         (innerWidth window / innerHeight window)%Q) sm in
      let sm2 := emit (CameraUpdateMatrices cameraManager) sm1 in
      sm3 ← queryReadyObjects isReady sm2;
      Ok (notifyObjects (emit RendererRender sm3))
  | None => Ok sm
  end.

End SceneManagerOps.

(** ** Ray casting from the camera *)

Module Vector2.
Record t : Type := mk { x : Q; y : Q }.
End Vector2.

Module Vector3.
Record t : Type := mk { x : Q; y : Q; z : Q }.
End Vector3.

Module Euler.
Record t : Type := mk { x : Q; y : Q; z : Q }.
End Euler.

(** An entry of the array returned by the intersection test,
    [{ distance, point, face, faceIndex, object }]; the manager reads
    [object] only, and the order is by [distance]. *)
Record Hit : Type := mkHit {
  distance : Q;
  point : Vector3.t;
  hit_object : Object3D
}.

Definition Qlt_bool (a b : Q) : bool := negb (Qle_bool b a).

Section Shoot.

(** [THREE.Raycaster]: [setFromCamera(ndcCoord, camera)] followed by
    [intersectObjects(objects)], a function of the coordinate, the
    camera and the array it is given.  It is taken to return on every
    array; what three.js does when an element of the array is itself an
    array, as after [RayCast.remove], is outside the model. *)
Variable intersectObjects :
  Vector2.t -> SceneObject -> list (Object3D + list Object3D) -> list Hit.

(** [RayCast.raycastFromCamera(ndcCoord, cameraManager)]; without a
    camera manager [cameraManager.getCamera()] throws. *)
Definition raycastFromCamera (ndcCoord : Vector2.t)
    (cameraManager : option SceneObject) (rc : RayCast) : result (list Hit) :=
  match cameraManager with
  | Some camera =>
      let hitObjects := intersectObjects ndcCoord camera (RayCastOps.queried rc) in
      Ok (if bool_decide (0 < length hitObjects) then hitObjects else [])
  | None => TypeError
  end.

(** The test of [shootRayFromCamera] on a defined coordinate. *)
Definition inViewport (window : Window) (rasterCoord : Vector2.t) : bool :=
  Qle_bool 0 (Vector2.x rasterCoord)
  && Qlt_bool (Vector2.x rasterCoord) (innerWidth window)
  && Qle_bool 0 (Vector2.y rasterCoord)
  && Qlt_bool (Vector2.y rasterCoord) (innerHeight window).

(** The coordinate handed to the ray caster. *)
Definition toNDC (window : Window) (rasterCoord : Vector2.t) : Vector2.t :=
  let ndcX := ((Vector2.x rasterCoord / innerWidth window) * 2 - 1)%Q in
  let ndcY := (- (Vector2.y rasterCoord / innerHeight window) * 2 + 1)%Q in
  {| Vector2.x := ndcX; Vector2.y := ndcY |}.

(** [shootRayFromCamera(rasterCoord, outlineNearest)]; an absent
    argument ([undefined] or [null]) is [None]. *)
Definition shootRayFromCamera (window : Window) (rasterCoord : option Vector2.t)
    (outlineNearest : option bool) (sm : SceneManager)
    : result (list Hit * SceneManager) :=
  match rasterCoord with
  | Some coord =>
      if inViewport window coord
      then
        hitPointData ← raycastFromCamera (toNDC window coord)
                         (activeCameraManager sm) (raycaster sm);
        if default false outlineNearest && bool_decide (0 < length hitPointData)
        then match hitPointData, activeCameraManager sm with
             | nearest :: _, Some camera =>
                 Ok (hitPointData,
                     SceneManagerOps.emit (RendererOutline [hit_object nearest] camera) sm)
             | _, _ => TypeError
             end
        else Ok (hitPointData, sm)
      else Ok ([], sm)
  | None => Ok ([], sm)
  end.

End Shoot.

(** ** First-person camera *)

(** The fields of [THREE.PerspectiveCamera] the camera managers touch. *)
Record PerspectiveCamera : Type := mkCamera {
  fov : Q;
  aspect : Q;
  position : Vector3.t;
  rotation : Euler.t
}.

Module FirstPerson.
Section Core.

(** [Maths.toDegrees], of helpers/maths.js, which is not part of the
    sources at hand: the handler is studied for any conversion. *)
Variable toDegrees : Q -> Q.

Definition setRotationX (v : Q) (camera : PerspectiveCamera) : PerspectiveCamera :=
  {| fov := fov camera; aspect := aspect camera; position := position camera;
     rotation := {| Euler.x := v;
                    Euler.y := Euler.y (rotation camera);
                    Euler.z := Euler.z (rotation camera) |} |}.

Definition setRotationY (v : Q) (camera : PerspectiveCamera) : PerspectiveCamera :=
  {| fov := fov camera; aspect := aspect camera; position := position camera;
     rotation := {| Euler.x := Euler.x (rotation camera);
                    Euler.y := v;
                    Euler.z := Euler.z (rotation camera) |} |}.

(** The test [pitchDeg > -85 && pitchDeg < 85]. *)
Definition pitchAllowed (pitchDeg : Q) : bool :=
  Qlt_bool (-85) pitchDeg && Qlt_bool pitchDeg 85.

(** [onMoveEvent(deltaX, deltaY, x, y)]; the cursor position is not
    read. *)
Definition onMoveEvent (deltaX deltaY : Q) (camera : PerspectiveCamera)
    : PerspectiveCamera :=
  let pitchDeg := toDegrees (Euler.x (rotation camera) - deltaY)%Q in
  let camera1 :=
    if pitchAllowed pitchDeg
    then setRotationX (Euler.x (rotation camera) - deltaY)%Q camera
    else camera in
  setRotationY (Euler.y (rotation camera1) - deltaX)%Q camera1.

(** A run of move events, oldest first. *)
Definition drag (moves : list (Q * Q)) (camera : PerspectiveCamera) : PerspectiveCamera :=
  foldl (fun c m => onMoveEvent m.1 m.2 c) camera moves.

(** The pitch of the camera, in degrees. *)
Definition pitchDegrees (camera : PerspectiveCamera) : Q :=
  toDegrees (Euler.x (rotation camera)).

End Core.
End FirstPerson.

(** ** Scene object groups *)

(** [SceneObjectGroup]: the children and the arrays of drawables and
    lights the group caches as children are added. *)
Module Group.

Record t : Type := mk {
  groupName : string;
  sceneObjects : list SceneObject;
  drawables : list Drawable;
  lights : list Light
}.

(** [new SceneObjectGroup(name)] *)
Definition create (n : string) : t :=
  {| groupName := n; sceneObjects := []; drawables := []; lights := [] |}.

(** [add(sceneObject)] *)
Definition add (sceneObject : SceneObject) (g : t) : t :=
  let sceneObjectDrawables := getDrawables sceneObject in
  let sceneObjectLights := getLights sceneObject in
  {| groupName := groupName g;
     sceneObjects := sceneObjects g ++ [sceneObject];
     drawables := foldl (fun ds sceneObjectDrawable => ds ++ [sceneObjectDrawable])
                        (drawables g) sceneObjectDrawables;
     lights := foldl (fun ls sceneObjectLight => ls ++ [sceneObjectLight])
                     (lights g) sceneObjectLights |}.

(** [isReady()]: [ready &&= sceneObject.isReady()] over the children. *)
Definition isReady (childReady : Readiness) (g : t) : bool :=
  foldl (fun ready sceneObject => ready && childReady sceneObject) true (sceneObjects g).

(** The hooks of a group forward to the children, in order. *)
Definition onMessage (senderName : string) (data : Data) (g : t) : list Event :=
  (fun sceneObject => OnMessage sceneObject senderName data) <$> sceneObjects g.

Definition onSceneStart (g : t) : list Event := OnSceneStart <$> sceneObjects g.
Definition onSceneRender (g : t) : list Event := OnSceneRender <$> sceneObjects g.
Definition onSceneEnd (g : t) : list Event := OnSceneEnd <$> sceneObjects g.

(** The group as the manager sees it when it queries it: [getDrawables()]
    and [getLights()] return the cached arrays, [isDrawable()] is true. *)
Definition asSceneObject (g : t) : SceneObject :=
  {| name := groupName g; isDrawable := true;
     getDrawables := drawables g; getLights := lights g;
     isCameraManager := false |}.

(** The readiness the manager observes when the group is among the
    objects. *)
Definition readiness (childReady : Readiness) (g : t) : Readiness :=
  fun o => if decide (o = asSceneObject g) then isReady childReady g else childReady o.

End Group.

(** ** First-person camera manager: activation and key input *)

Module FirstPersonManager.

(** [FirstPersonCameraManagerCore.onActive(sceneManager, myName)] *)
Definition onActive (myName : string) (sm : SceneManager) : SceneManager :=
  SceneManagerOps.broadcastTo myName "Input" Null sm.

(** [SceneManager.setActiveCamera(name)] when the object found is a
    first-person camera manager: its [onActive] hook runs between the
    assignment of the active camera and the set-up of the renderer. *)
Definition setActiveCamera (n : string) (sm : SceneManager) : SceneManager :=
  match JSMap.get n (sceneObjectMap sm) with
  | Some cameraManager =>
      SceneManagerOps.emit (RendererSetup cameraManager)
        (onActive (name cameraManager)
           (SceneManagerOps.emit (OnActive cameraManager)
              (SceneManagerOps.withActiveCamera (Some cameraManager) sm)))
  | None => sm
  end.

Section Keys.

(** [camera.getWorldDirection] of three.js and the vector helpers of
    helpers/maths.js, which are not part of the sources at hand. *)
Variable getWorldDirection : PerspectiveCamera -> Vector3.t.
Variable cross : Vector3.t -> Vector3.t -> Vector3.t.
Variable addVectors : Vector3.t -> Vector3.t -> Vector3.t.
Variable subtractVectors : Vector3.t -> Vector3.t -> Vector3.t.

(** [camera.position.set(v.x, v.y, v.z)] *)
Definition setPosition (v : Vector3.t) (camera : PerspectiveCamera) : PerspectiveCamera :=
  {| fov := fov camera; aspect := aspect camera;
     position := {| Vector3.x := Vector3.x v; Vector3.y := Vector3.y v;
                    Vector3.z := Vector3.z v |};
     rotation := rotation camera |}.

Definition scaled (scale : Q) (v : Vector3.t) : Vector3.t :=
  {| Vector3.x := (Vector3.x v * scale)%Q; Vector3.y := (Vector3.y v * scale)%Q;
     Vector3.z := (Vector3.z v * scale)%Q |}.

(** [keyMap.get(k) != undefined] *)
Definition pressed (k : string) (keyMap : gmap string unit) : bool :=
  bool_decide (is_Some (keyMap !! k)).

(** [onKeyinput(keyMap)] *)
Definition onKeyinput (keyMap : gmap string unit) (camera : PerspectiveCamera)
    : PerspectiveCamera :=
  let scale := (1 # 10)%Q in
  let front0 := getWorldDirection camera in
  let right0 := cross front0 {| Vector3.x := 0; Vector3.y := 1; Vector3.z := 0 |} in
  let front := scaled scale front0 in
  let right := scaled scale right0 in
  let camera1 :=
    if pressed "w" keyMap
    then setPosition (addVectors (position camera) front) camera else camera in
  let camera2 :=
    if pressed "s" keyMap
    then setPosition (subtractVectors (position camera1) front) camera1 else camera1 in
  let camera3 :=
    if pressed "a" keyMap
    then setPosition (subtractVectors (position camera2) right) camera2 else camera2 in
  if pressed "d" keyMap
  then setPosition (addVectors (position camera3) right) camera3 else camera3.

End Keys.
End FirstPersonManager.

(** * Specification vocabulary and sample data *)

(** The pitch lies strictly between -85 and 85 degrees. *)
Definition pitchInRange (toDegrees : Q -> Q) (camera : PerspectiveCamera) : Prop :=
  (-85 < FirstPerson.pitchDegrees toDegrees camera
   /\ FirstPerson.pitchDegrees toDegrees camera < 85)%Q.

(** The raster coordinate lies in the viewport: x in [0, width) and y in
    [0, height). *)
Definition insideViewport (window : Window) (rasterCoord : Vector2.t) : Prop :=
  (0 <= Vector2.x rasterCoord /\ Vector2.x rasterCoord < innerWidth window
   /\ 0 <= Vector2.y rasterCoord /\ Vector2.y rasterCoord < innerHeight window)%Q.

(** Hits in order of non-decreasing distance: each hit is no farther than
    any later one. *)
Definition nearestFirst (hits : list Hit) : Prop :=
  StronglySorted (fun a b => (distance a <= distance b)%Q) hits.

(** ** Observations on the scene manager *)

#[global] Instance Q_eq_dec : EqDecision Q.
Proof. solve_decision. Defined.
#[global] Instance Data_eq_dec : EqDecision Data.
Proof. solve_decision. Defined.
#[global] Instance Event_eq_dec : EqDecision Event.
Proof. solve_decision. Defined.

(** The state after a run of further calls. *)
Definition emits (es : list Event) (sm : SceneManager) : SceneManager :=
  {| raycaster := raycaster sm;
     activeCameraManager := activeCameraManager sm;
     sceneObjectMap := sceneObjectMap sm;
     inactiveObjNameMap := inactiveObjNameMap sm;
     messageMap := messageMap sm;
     calls := calls sm ++ es |}.

(** The ray caster after the loop of [addToScene], resp. [removeFromScene],
    for a scene object. *)
Definition castAdded (o : SceneObject) (rc : RayCast) : RayCast :=
  foldl (fun r d => if isRayCastable d
                    then RayCastOps.add (name o) (drawable_object d) r else r)
        rc (getDrawables o).

Definition castRemoved (o : SceneObject) (rc : RayCast) : RayCast :=
  foldl (fun r d => if isRayCastable d then RayCastOps.remove (name o) r else r)
        rc (getDrawables o).

(** The calls made between two states of a run. *)
Definition callsSince (before after : SceneManager) : list Event :=
  drop (length (calls before)) (calls after).

(** The renderer calls of [addToScene]: the drawables, then the lights. *)
Definition addCalls (o : SceneObject) : list Event :=
  ((fun d => RendererAdd (drawable_object d) (bool_decide (0 < length (getLights o))))
     <$> getDrawables o)
  ++ ((fun l => RendererAdd (light_object l) false) <$> getLights o).

(** The renderer calls of [removeFromScene]. *)
Definition removeCalls (o : SceneObject) : list Event :=
  ((fun d => RendererRemove (drawable_object d)) <$> getDrawables o)
  ++ ((fun l => RendererRemove (light_object l)) <$> getLights o).

(** The objects of the ray-castable drawables of a scene object. *)
Definition picked (o : SceneObject) : list Object3D :=
  drawable_object <$> filter (fun d => isRayCastable d = true) (getDrawables o).

(** How often the start hook of [o] is called in a run of calls. *)
Definition startsOf (o : SceneObject) (evs : list Event) : nat :=
  length (filter (fun e => e = OnSceneStart o) evs).

(** The calls of [onMessage] in a run of calls. *)
Definition isMessage (e : Event) : bool :=
  match e with
  | OnMessage _ _ _ => true
  | _ => false
  end.

Definition messagesIn (evs : list Event) : list Event :=
  filter (fun e => isMessage e = true) evs.

(** The calls of [broadcastToAll]: one call of [onMessage] per key of the
    registry other than the sender, in the order of the keys. *)
Definition recipients (from : string) (data : Data)
    (registry : list (string * SceneObject)) (ks : list string) : list Event :=
  k ← ks;
  if decide (k ≠ from)
  then match JSMap.get k registry with
       | Some o => [OnMessage o from data]
       | None => []
       end
  else [].

(** A name is active when the last thing the manager did with an object
    of that name, among adding it to the scene (followed by its start
    hook) and removing it from the scene (followed by its end hook), was
    to add it. *)
Definition lifecycleStep (n : string) (isActive : bool) (e : Event) : bool :=
  match e with
  | OnSceneStart o => if decide (name o = n) then true else isActive
  | OnSceneEnd o => if decide (name o = n) then false else isActive
  | _ => isActive
  end.

Definition active (n : string) (sm : SceneManager) : bool :=
  foldl (lifecycleStep n) false (calls sm).

Definition awaiting (n : string) (sm : SceneManager) : bool :=
  JSMap.has n (inactiveObjNameMap sm).

Definition registered (n : string) (sm : SceneManager) : bool :=
  JSMap.has n (sceneObjectMap sm).

(** The operations of a run, each with the readiness of the objects at
    the time it is made. *)
Inductive Op : Type :=
| Register (o : SceneObject)
| Unregister (n : string)
| Activate (n : string)
| Frame (window : Window).

Definition step (isReady : Readiness) (op : Op) (sm : SceneManager) : result SceneManager :=
  match op with
  | Register o => Ok (SceneManagerOps.register isReady o sm)
  | Unregister n => Ok (SceneManagerOps.unregister n sm)
  | Activate n => SceneManagerOps.setActiveCamera n sm
  | Frame window => SceneManagerOps.renderLoop window isReady sm
  end.

Fixpoint run (ops : list (Readiness * Op)) (sm : SceneManager) : result SceneManager :=
  match ops with
  | [] => Ok sm
  | (isReady, op) :: rest => sm' ← step isReady op sm; run rest sm'
  end.

(** ** The claims on registration, as the specification words them *)

(** Registration, as worded: parked without a start hook when drawable
    and not ready; otherwise added to the renderer and the ray caster and
    started; pending messages delivered last in both cases. *)
Definition registerAsWorded (isReady : Readiness) (o : SceneObject) (sm : SceneManager)
    : Prop :=
  let sm' := SceneManagerOps.register isReady o sm in
  let pending := default [] (messageMap sm !! name o) in
  if isDrawable o && negb (isReady o)
  then awaiting (name o) sm' = true
       /\ callsSince sm sm' = (SceneManagerOps.deliver o <$> pending)
  else callsSince sm sm'
       = addCalls o ++ [OnSceneStart o] ++ (SceneManagerOps.deliver o <$> pending)
       /\ raycastObjects (raycaster sm')
          = raycastObjects (raycaster sm) ++ (Obj <$> picked o).

(** The registry invariant, as worded: a registered name is active or
    awaiting and not both, and an awaiting name is registered. *)
Definition registryInvariant (sm : SceneManager) : Prop :=
  forall n : string,
    (registered n sm = true -> xorb (active n sm) (awaiting n sm) = true)
    /\ (awaiting n sm = true -> registered n sm = true).

(** Re-registration, as worded: for a registered name, [unregister]
    followed by [register] of the same object leaves the name active and
    calls the start hook once. *)
Definition reregisterAsWorded (isReady : Readiness) (o : SceneObject) (sm : SceneManager)
    : Prop :=
  JSMap.get (name o) (sceneObjectMap sm) = Some o ->
  let sm' := SceneManagerOps.register isReady o (SceneManagerOps.unregister (name o) sm) in
  active (name o) sm' = true /\ startsOf o (callsSince sm sm') = 1.

(** The side conditions under which the registry invariant is kept: an
    object is registered under a name not in use and is drawable or ready;
    a name is not unregistered while it awaits readiness; the object
    activated as camera, if the name is registered, is a camera manager. *)
Definition admissible (isReady : Readiness) (op : Op) (sm : SceneManager) : Prop :=
  match op with
  | Register o =>
      (isDrawable o = true \/ isReady o = true)
      /\ JSMap.get (name o) (sceneObjectMap sm) = None
  | Unregister n => JSMap.get n (inactiveObjNameMap sm) = None
  | Activate n =>
      match JSMap.get n (sceneObjectMap sm) with
      | Some o => isCameraManager o = true
      | None => True
      end
  | Frame _ => True
  end.

Fixpoint admissibleRun (ops : list (Readiness * Op)) (sm : SceneManager) : Prop :=
  match ops with
  | [] => True
  | (isReady, op) :: rest =>
      admissible isReady op sm
      /\ match step isReady op sm with
         | Ok sm' => admissibleRun rest sm'
         | TypeError => True
         end
  end.

(** The facts the manager relies on between operations, which imply the
    registry invariant: keys are names and occur once, an awaiting name is
    registered, and the active names are the registered names that are not
    awaiting. *)
Record coherent (sm : SceneManager) : Prop := mkCoherent {
  registry_keys_once : NoDup (JSMap.keys (sceneObjectMap sm));
  awaiting_keys_once : NoDup (JSMap.keys (inactiveObjNameMap sm));
  registry_keys_names :
    forall k o, JSMap.get k (sceneObjectMap sm) = Some o -> name o = k;
  awaiting_registered :
    forall n, n ∈ JSMap.keys (inactiveObjNameMap sm) -> n ∈ JSMap.keys (sceneObjectMap sm);
  active_iff :
    forall n, active n sm = true
              <-> n ∈ JSMap.keys (sceneObjectMap sm)
                  /\ n ∉ JSMap.keys (inactiveObjNameMap sm)
}.

(** ** Runs of calls *)

(** The calls on the ray caster. *)
Inductive RayOp : Type :=
| RayAdd (n : string) (o : Object3D)
| RayRemove (n : string).

Definition rayStep (rc : RayCast) (op : RayOp) : RayCast :=
  match op with
  | RayAdd n o => RayCastOps.add n o rc
  | RayRemove n => RayCastOps.remove n rc
  end.

Definition rayRun (ops : list RayOp) (rc : RayCast) : RayCast := foldl rayStep rc ops.

(** A run of [add] calls, each an owner and an object. *)
Definition addAll (l : list (string * Object3D)) (rc : RayCast) : RayCast :=
  foldl (fun r p => RayCastOps.add p.1 p.2 r) rc l.

(** The state in which the array is spoilt for good: it holds an owner's
    array, and the map has an owner. *)
Definition spoilt (rc : RayCast) : Prop :=
  (exists k, Arr k ∈ raycastObjects rc) /\ raycastObjectMap rc <> [].

(** The calls on the scene manager, messaging included. *)
Inductive Call : Type :=
| CallRegister (o : SceneObject)
| CallUnregister (n : string)
| CallSetActiveCamera (n : string)
| CallRenderLoop (window : Window)
| CallBroadcastTo (from to : string) (data : Data)
| CallBroadcastToAll (from : string) (data : Data).

Definition perform (isReady : Readiness) (c : Call) (sm : SceneManager)
    : result SceneManager :=
  match c with
  | CallRegister o => Ok (SceneManagerOps.register isReady o sm)
  | CallUnregister n => Ok (SceneManagerOps.unregister n sm)
  | CallSetActiveCamera n => SceneManagerOps.setActiveCamera n sm
  | CallRenderLoop window => SceneManagerOps.renderLoop window isReady sm
  | CallBroadcastTo from to data => Ok (SceneManagerOps.broadcastTo from to data sm)
  | CallBroadcastToAll from data => SceneManagerOps.broadcastToAll from data sm
  end.

Fixpoint performAll (cs : list (Readiness * Call)) (sm : SceneManager)
    : result SceneManager :=
  match cs with
  | [] => Ok sm
  | (isReady, c) :: rest => sm' ← perform isReady c sm; performAll rest sm'
  end.

(** A run of [broadcastTo] calls, each a sender, a recipient and a
    payload. *)
Definition broadcastAll (sends : list (string * string * Data)) (sm : SceneManager)
    : SceneManager :=
  foldl (fun s m => SceneManagerOps.broadcastTo m.1.1 m.1.2 m.2 s) sm sends.

(** The message of a [broadcastTo] call. *)
Definition messageOf (m : string * string * Data) : Message :=
  {| msg_from := m.1.1; msg_to := m.1.2; msg_data := m.2 |}.


(** Keys are names and occur once, in the registry and in the awaiting
    set. *)
Definition wellKeyed (sm : SceneManager) : Prop :=
  NoDup (JSMap.keys (sceneObjectMap sm))
  /\ NoDup (JSMap.keys (inactiveObjNameMap sm))
  /\ forall k o, JSMap.get k (sceneObjectMap sm) = Some o -> name o = k.

(** The mailbox holds queues for unregistered names only, none of them
    empty. *)
Definition mailboxForAbsent (sm : SceneManager) : Prop :=
  forall n queue, messageMap sm !! n = Some queue ->
                  JSMap.get n (sceneObjectMap sm) = None /\ queue <> [].





(** The calls of [onMessage] a run of [broadcastTo] calls makes at once:
    one per message whose recipient is registered. *)
Definition directDeliveries (registry : list (string * SceneObject))
    (sends : list (string * string * Data)) : list Event :=
  m ← sends;
  match JSMap.get m.1.2 registry with
  | Some o => [OnMessage o m.1.1 m.2]
  | None => []
  end.

(** The yaw after a run of move events: each horizontal displacement is
    subtracted in turn, oldest first. *)
Definition yawAfter (moves : list (Q * Q)) (yaw : Q) : Q :=
  foldl (fun y m => (y - m.1)%Q) yaw moves.

(** The calls that set the active camera. *)
Definition isActivation (c : Call) : bool :=
  match c with
  | CallSetActiveCamera _ => true
  | _ => false
  end.

(** A group made of the given children, added in order. *)
Definition groupOf (n : string) (children : list SceneObject) : Group.t :=
  foldl (fun g child => Group.add child g) (Group.create n) children.

(** The request a first-person camera manager sends when it becomes
    active. *)
Definition inputRequest (cameraName : string) : Message :=
  {| msg_from := cameraName; msg_to := "Input"; msg_data := Null |}.

(** The three.js objects of a scene object: those of its drawables, then
    those of its lights. *)
Definition objectsOf (o : SceneObject) : list Object3D :=
  (drawable_object <$> getDrawables o) ++ (light_object <$> getLights o).

(** The objects the renderer is asked to add, resp. to remove, in a run
    of calls. *)
Definition rendererAdded (evs : list Event) : list Object3D :=
  e ← evs; match e with RendererAdd object _ => [object] | _ => [] end.

Definition rendererRemoved (evs : list Event) : list Object3D :=
  e ← evs; match e with RendererRemove object => [object] | _ => [] end.

(** ** Sample data *)

(** A conversion to degrees with 355/113 for pi, and a camera looking
    straight ahead. *)
Definition degrees355 (radians : Q) : Q := (radians * 180 / (355 # 113))%Q.

Definition cameraAhead : PerspectiveCamera :=
  {| fov := 50; aspect := 1;
     position := {| Vector3.x := 0; Vector3.y := 0; Vector3.z := 0 |};
     rotation := {| Euler.x := 0; Euler.y := 0; Euler.z := 0 |} |}.

(** A concrete setting: an 800 by 600 window, a camera registered and
    active, and an intersection test that reports two hits whose distances
    depend on the coordinate. *)
Definition window800 : Window := {| innerWidth := 800; innerHeight := 600 |}.

Definition cameraObject : SceneObject :=
  {| name := "Camera"; isDrawable := false; getDrawables := []; getLights := [];
     isCameraManager := true |}.

Definition sceneWithCamera : SceneManager :=
  match SceneManagerOps.setActiveCamera "Camera"
          (SceneManagerOps.register (fun _ => true) cameraObject SceneManagerOps.initial)
  with
  | Ok sm => sm
  | TypeError => SceneManagerOps.initial
  end.

Definition twoHits (ndc : Vector2.t) (camera : SceneObject)
    (objects : list (Object3D + list Object3D)) : list Hit :=
  let origin := {| Vector3.x := 0; Vector3.y := 0; Vector3.z := 0 |} in
  [ {| distance := 1; point := origin; hit_object := 7 |};
    {| distance := (2 + Vector2.x ndc * Vector2.x ndc)%Q; point := origin; hit_object := 9 |} ].

(** Readiness of every object, resp. of none. *)
Definition allReady : Readiness := fun _ => true.
Definition noneReady : Readiness := fun _ => false.

(** An object that is not drawable (it keeps the default [isDrawable])
    and overrides [isReady]. *)
Definition inputObject : SceneObject :=
  {| name := "Input"; isDrawable := false; getDrawables := []; getLights := [];
     isCameraManager := false |}.

(** A model with one ray-castable mesh and one light. *)
Definition modelObject : SceneObject :=
  {| name := "Model"; isDrawable := true;
     getDrawables := [ {| drawable_object := 11; isRayCastable := true |} ];
     getLights := [ {| light_object := 12 |} ];
     isCameraManager := false |}.

(** A run: the camera is registered and activated, a model is registered
    while it loads, a frame passes, the model becomes ready and is
    promoted by the next frame, and is unregistered at last. *)
Definition sampleRun : list (Readiness * Op) :=
  [ (allReady, Register cameraObject);
    (allReady, Activate "Camera");
    (noneReady, Register modelObject);
    (noneReady, Frame window800);
    (allReady, Frame window800);
    (allReady, Unregister "Model") ].

(** A run with messages: a request to the input manager is sent before
    it registers, the model is unregistered while it awaits readiness and
    registered again, and a frame passes at the end. *)
Definition sampleCalls : list (Readiness * Call) :=
  [ (allReady, CallRegister cameraObject);
    (allReady, CallSetActiveCamera "Camera");
    (allReady, CallBroadcastTo "Camera" "Input" Null);
    (noneReady, CallRegister modelObject);
    (allReady, CallRegister inputObject);
    (allReady, CallBroadcastToAll "Input" (Str "key"));
    (noneReady, CallUnregister "Model");
    (allReady, CallRegister modelObject);
    (allReady, CallRenderLoop window800) ].

(** * Properties *)

Example remove_example :
  RayCastOps.remove "a" (RayCastOps.add "b" 2 (RayCastOps.add "a" 1 RayCastOps.empty))
  = {| raycastObjectMap := [("a", [1]); ("b", [2])];
       raycastObjects := [Arr "a"; Arr "b"] |}.
Proof. reflexivity. Qed.

(** ** Facts about [JSMap] *)

Section JSMapFacts.
Context {V : Type}.
Implicit Types (m : list (string * V)) (k : string) (v : V).

Lemma get_set_eq m k v : JSMap.get k (JSMap.set k v m) = Some v.
Proof.
  induction m as [|[k' v'] r IH]; cbn.
  - rewrite decide_True; done.
  - destruct (decide (k' = k)) as [->|Hne]; cbn.
    + rewrite decide_True; done.
    + rewrite decide_False; done.
Qed.

Lemma get_set_ne m k k' v : k ≠ k' -> JSMap.get k' (JSMap.set k v m) = JSMap.get k' m.
Proof.
  intros Hne. induction m as [|[k0 v0] r IH]; cbn.
  - rewrite decide_False; done.
  - destruct (decide (k0 = k)) as [->|Hk]; cbn.
    + rewrite !decide_False; done.
    + destruct (decide (k0 = k')); done.
Qed.

Lemma get_delete_ne m k k' : k ≠ k' -> JSMap.get k' (JSMap.delete k m) = JSMap.get k' m.
Proof.
  intros Hne. induction m as [|[k0 v0] r IH]; cbn; [done|].
  destruct (decide (k0 = k)) as [->|Hk]; cbn.
  - rewrite decide_False; done.
  - destruct (decide (k0 = k')); done.
Qed.

Lemma get_None_keys m k : JSMap.get k m = None <-> k ∉ JSMap.keys m.
Proof.
  unfold JSMap.keys. induction m as [|[k0 v0] r IH]; cbn.
  - split; [intros _; apply not_elem_of_nil | done].
  - rewrite not_elem_of_cons. destruct (decide (k0 = k)) as [->|Hk].
    + split; [done | intros [Hne _]; done].
    + rewrite IH. split; [intros H; split; [congruence | done] | intros [_ H]; done].
Qed.

Lemma get_Some_keys m k v : JSMap.get k m = Some v -> k ∈ JSMap.keys m.
Proof.
  intros Hget. destruct (decide (k ∈ JSMap.keys m)) as [|Hn]; [done|].
  apply get_None_keys in Hn. congruence.
Qed.

Lemma keys_get_Some m k : k ∈ JSMap.keys m -> is_Some (JSMap.get k m).
Proof.
  intros Hin. destruct (JSMap.get k m) eqn:Hget; [eauto|].
  apply get_None_keys in Hget. done.
Qed.

Lemma get_delete_eq m k : NoDup (JSMap.keys m) -> JSMap.get k (JSMap.delete k m) = None.
Proof.
  unfold JSMap.keys. induction m as [|[k0 v0] r IH]; cbn; [done|].
  intros Hnd. apply NoDup_cons in Hnd as [Hk0 Hnd].
  destruct (decide (k0 = k)) as [->|Hk]; cbn.
  - apply get_None_keys, Hk0.
  - rewrite decide_False; auto.
Qed.

Lemma keys_set_old m k v : k ∈ JSMap.keys m -> JSMap.keys (JSMap.set k v m) = JSMap.keys m.
Proof.
  unfold JSMap.keys. induction m as [|[k0 v0] r IH]; cbn.
  - intros H. by apply elem_of_nil in H.
  - intros Hin. destruct (decide (k0 = k)) as [->|Hk]; cbn; [done|].
    apply elem_of_cons in Hin as [->|Hin]; [done|]. by rewrite IH.
Qed.

Lemma keys_set_new m k v : k ∉ JSMap.keys m -> JSMap.keys (JSMap.set k v m) = JSMap.keys m ++ [k].
Proof.
  unfold JSMap.keys. induction m as [|[k0 v0] r IH]; cbn; [done|].
  intros Hin. apply not_elem_of_cons in Hin as [Hne Hin].
  rewrite decide_False by done. cbn. by rewrite IH.
Qed.

Lemma keys_set_elem m k k' v :
  k' ∈ JSMap.keys (JSMap.set k v m) <-> k' = k \/ k' ∈ JSMap.keys m.
Proof.
  destruct (decide (k ∈ JSMap.keys m)) as [Hin|Hn].
  - rewrite keys_set_old by done. split; [auto | intros [->|]; done].
  - rewrite keys_set_new by done. rewrite elem_of_app, list_elem_of_singleton. tauto.
Qed.

Lemma NoDup_keys_set m k v : NoDup (JSMap.keys m) -> NoDup (JSMap.keys (JSMap.set k v m)).
Proof.
  intros Hnd. destruct (decide (k ∈ JSMap.keys m)) as [Hin|Hn].
  - by rewrite keys_set_old.
  - rewrite keys_set_new by done. apply NoDup_app. split; [done|].
    split; [|apply NoDup_singleton].
    intros x Hx Hk. apply list_elem_of_singleton in Hk. by subst.
Qed.

Lemma keys_delete_elem m k k' :
  NoDup (JSMap.keys m) ->
  k' ∈ JSMap.keys (JSMap.delete k m) <-> k' ≠ k /\ k' ∈ JSMap.keys m.
Proof.
  unfold JSMap.keys. induction m as [|[k0 v0] r IH]; cbn.
  - intros _. split; [intros H; by apply elem_of_nil in H | intros [_ H]; done].
  - intros Hnd. apply NoDup_cons in Hnd as [Hk0 Hnd].
    destruct (decide (k0 = k)) as [->|Hk]; cbn.
    + rewrite elem_of_cons. split.
      * intros Hin. split; [intros ->; done | auto].
      * intros [Hne [->|Hin]]; done.
    + rewrite !elem_of_cons, IH by done. split.
      * intros [->|[Hne Hin]]; [split; [done | auto] | split; [done | auto]].
      * intros [Hne [->|Hin]]; auto.
Qed.

Lemma NoDup_keys_delete m k : NoDup (JSMap.keys m) -> NoDup (JSMap.keys (JSMap.delete k m)).
Proof.
  unfold JSMap.keys. induction m as [|[k0 v0] r IH]; cbn; [done|].
  intros Hnd. apply NoDup_cons in Hnd as [Hk0 Hnd].
  destruct (decide (k0 = k)) as [->|Hk]; cbn; [done|].
  apply NoDup_cons. split; [|auto].
  intros Hin. apply (keys_delete_elem r k k0 Hnd) in Hin as [_ Hin]. done.
Qed.
End JSMapFacts.

(** ** Comparison of rationals *)

Lemma Qlt_bool_iff (a b : Q) : Qlt_bool a b = true <-> (a < b)%Q.
Proof.
  unfold Qlt_bool. rewrite negb_true_iff, <- not_true_iff_false, Qle_bool_iff.
  split; [apply Qnot_le_lt | apply Qlt_not_le].
Qed.

(** ** First-person camera: pitch and yaw *)

Section FirstPersonFacts.
Variable toDegrees : Q -> Q.

Lemma pitchAllowed_iff (pitchDeg : Q) :
  FirstPerson.pitchAllowed pitchDeg = true <-> (-85 < pitchDeg /\ pitchDeg < 85)%Q.
Proof.
  unfold FirstPerson.pitchAllowed.
  rewrite andb_true_iff, !Qlt_bool_iff. reflexivity.
Qed.

Lemma onMoveEvent_pitch (deltaX deltaY : Q) (camera : PerspectiveCamera) :
  Euler.x (rotation (FirstPerson.onMoveEvent toDegrees deltaX deltaY camera))
  = if FirstPerson.pitchAllowed (toDegrees (Euler.x (rotation camera) - deltaY)%Q)
    then (Euler.x (rotation camera) - deltaY)%Q
    else Euler.x (rotation camera).
Proof.
  unfold FirstPerson.onMoveEvent.
  destruct (FirstPerson.pitchAllowed _); reflexivity.
Qed.

Lemma onMoveEvent_keeps_range (deltaX deltaY : Q) (camera : PerspectiveCamera) :
  pitchInRange toDegrees camera ->
  pitchInRange toDegrees (FirstPerson.onMoveEvent toDegrees deltaX deltaY camera).
Proof.
  intros Hin. unfold pitchInRange, FirstPerson.pitchDegrees.
  rewrite onMoveEvent_pitch.
  destruct (FirstPerson.pitchAllowed _) eqn:Hok.
  - apply pitchAllowed_iff in Hok. exact Hok.
  - exact Hin.
Qed.

Lemma drag_keeps_range (moves : list (Q * Q)) :
  forall camera : PerspectiveCamera,
    pitchInRange toDegrees camera -> pitchInRange toDegrees (FirstPerson.drag toDegrees moves camera).
Proof.
  induction moves as [|[dx dy] rest IH]; intros camera Hin; [exact Hin|].
  apply IH, onMoveEvent_keeps_range, Hin.
Qed.
End FirstPersonFacts.

(** C8. Starting from a pitch within (-85, 85) degrees, the pitch is
    within (-85, 85) degrees after any run of cursor-drag move events; and
    a move event whose proposed pitch is outside that range leaves the
    pitch as it was. *)
Theorem C8_pitch_stays_within_85
    (toDegrees : Q -> Q) (moves : list (Q * Q)) (camera : PerspectiveCamera) :
  pitchInRange toDegrees camera ->
  pitchInRange toDegrees (FirstPerson.drag toDegrees moves camera)
  /\ (forall (deltaX deltaY : Q) (c : PerspectiveCamera),
        ~ (-85 < toDegrees (Euler.x (rotation c) - deltaY)
           /\ toDegrees (Euler.x (rotation c) - deltaY) < 85)%Q ->
        Euler.x (rotation (FirstPerson.onMoveEvent toDegrees deltaX deltaY c))
        = Euler.x (rotation c)).
Proof.
  intros Hin. split.
  - apply drag_keeps_range, Hin.
  - intros deltaX deltaY c Hout. rewrite onMoveEvent_pitch.
    destruct (FirstPerson.pitchAllowed _) eqn:Hok; [|reflexivity].
    apply pitchAllowed_iff in Hok. contradiction.
Qed.

Lemma C8_pitch_stays_within_85_witness :
  pitchInRange degrees355 cameraAhead
  /\ pitchInRange degrees355
       (FirstPerson.drag degrees355 [((1 # 10), (1 # 2)); (0, 2); ((1 # 4), -1)]%Q cameraAhead).
Proof.
  assert (H0 : pitchInRange degrees355 cameraAhead)
    by (split; vm_compute; reflexivity).
  split; [exact H0|].
  exact (proj1 (C8_pitch_stays_within_85 degrees355 _ cameraAhead H0)).
Defined.

(** C10. Every cursor-drag move event lowers the yaw by exactly [deltaX],
    whether or not the pitch change is accepted; and when the pitch change
    is rejected, the yaw is the only part of the camera that changes. *)
Theorem C10_yaw_always_updated
    (toDegrees : Q -> Q) (deltaX deltaY : Q) (camera : PerspectiveCamera) :
  Euler.y (rotation (FirstPerson.onMoveEvent toDegrees deltaX deltaY camera))
  = (Euler.y (rotation camera) - deltaX)%Q
  /\ (~ (-85 < toDegrees (Euler.x (rotation camera) - deltaY)
         /\ toDegrees (Euler.x (rotation camera) - deltaY) < 85)%Q ->
      FirstPerson.onMoveEvent toDegrees deltaX deltaY camera
      = {| fov := fov camera; aspect := aspect camera; position := position camera;
           rotation := {| Euler.x := Euler.x (rotation camera);
                          Euler.y := (Euler.y (rotation camera) - deltaX)%Q;
                          Euler.z := Euler.z (rotation camera) |} |}).
Proof.
  split.
  - unfold FirstPerson.onMoveEvent.
    destruct (FirstPerson.pitchAllowed _); reflexivity.
  - intros Hout. unfold FirstPerson.onMoveEvent.
    destruct (FirstPerson.pitchAllowed _) eqn:Hok; [|reflexivity].
    apply pitchAllowed_iff in Hok. contradiction.
Qed.

Lemma C10_yaw_always_updated_witness :
  FirstPerson.onMoveEvent degrees355 (1 # 4) 2 cameraAhead
  = {| fov := 50; aspect := 1;
       position := {| Vector3.x := 0; Vector3.y := 0; Vector3.z := 0 |};
       rotation := {| Euler.x := 0; Euler.y := (0 - (1 # 4))%Q; Euler.z := 0 |} |}.
Proof.
  apply (proj2 (C10_yaw_always_updated degrees355 (1 # 4) 2 cameraAhead)).
  vm_compute. intros [H _]. discriminate H.
Defined.

(** ** Ray casting from the camera: viewport test, device coordinates, order *)

Lemma inViewport_iff (window : Window) (rasterCoord : Vector2.t) :
  inViewport window rasterCoord = true <-> insideViewport window rasterCoord.
Proof.
  unfold inViewport, insideViewport.
  rewrite !andb_true_iff, !Qlt_bool_iff, !Qle_bool_iff. tauto.
Qed.

Lemma unit_fraction (a b : Q) : (0 <= a)%Q -> (a < b)%Q -> (0 <= a / b /\ a / b <= 1)%Q.
Proof.
  intros Ha Hab.
  assert (Hb : (0 < b)%Q) by (eapply Qle_lt_trans; eassumption).
  split.
  - apply Qle_shift_div_l; [exact Hb|]. lra.
  - apply Qle_shift_div_r; [exact Hb|]. lra.
Qed.

Lemma toNDC_bounds (window : Window) (rasterCoord : Vector2.t) :
  insideViewport window rasterCoord ->
  (-1 <= Vector2.x (toNDC window rasterCoord) <= 1
   /\ -1 <= Vector2.y (toNDC window rasterCoord) <= 1)%Q.
Proof.
  intros (Hx0 & HxW & Hy0 & HyH). cbn.
  destruct (unit_fraction _ _ Hx0 HxW) as [Hx1 Hx2].
  destruct (unit_fraction _ _ Hy0 HyH) as [Hy1 Hy2].
  lra.
Qed.

Lemma nonempty_or_nil {A : Type} (l : list A) :
  (if bool_decide (0 < length l) then l else []) = l.
Proof. destruct l; reflexivity. Qed.

Section ShootFacts.
Variable intersectObjects :
  Vector2.t -> SceneObject -> list (Object3D + list Object3D) -> list Hit.

Lemma shoot_outside (window : Window) (rasterCoord : option Vector2.t)
    (outlineNearest : option bool) (sm : SceneManager) :
  rasterCoord = None
  \/ (exists coord, rasterCoord = Some coord /\ ~ insideViewport window coord) ->
  shootRayFromCamera intersectObjects window rasterCoord outlineNearest sm = Ok ([], sm).
Proof.
  intros [-> | (coord & -> & Hout)]; [reflexivity|].
  unfold shootRayFromCamera.
  destruct (inViewport window coord) eqn:Hin; [|reflexivity].
  apply inViewport_iff in Hin. contradiction.
Qed.

(** Inside the viewport and with an active camera, the call returns what
    the intersection test finds for the converted coordinate, and the
    only call it may add is the outline of the first hit. *)
Lemma shoot_inside (window : Window) (coord : Vector2.t)
    (outlineNearest : option bool) (sm : SceneManager) (camera : SceneObject) :
  insideViewport window coord ->
  activeCameraManager sm = Some camera ->
  let hits := intersectObjects (toNDC window coord) camera
                (RayCastOps.queried (raycaster sm)) in
  shootRayFromCamera intersectObjects window (Some coord) outlineNearest sm
  = Ok (hits,
        match outlineNearest, hits with
        | Some true, nearest :: _ =>
            SceneManagerOps.emit (RendererOutline [hit_object nearest] camera) sm
        | _, _ => sm
        end).
Proof.
  intros Hin Hcam hits. apply inViewport_iff in Hin.
  unfold shootRayFromCamera, raycastFromCamera. rewrite Hin, Hcam. cbn.
  rewrite nonempty_or_nil. fold hits.
  destruct outlineNearest as [[|]|]; cbn; try reflexivity.
  destruct hits; reflexivity.
Qed.
End ShootFacts.

(** C6. [shootRayFromCamera] returns the empty sequence (and changes
    nothing) when the raster coordinate is absent or outside the viewport,
    x in [0, width) and y in [0, height).  When the coordinate is inside,
    the ray caster is queried with the coordinate
    (2 x / width - 1, 1 - 2 y / height), whose components lie in [-1, 1]
    and whose y is flipped: the call returns the hits of that query, and
    throws when the query does (no active camera). *)
Theorem C6_viewport_guard_and_ndc
    (intersectObjects :
       Vector2.t -> SceneObject -> list (Object3D + list Object3D) -> list Hit)
    (window : Window) (rasterCoord : option Vector2.t)
    (outlineNearest : option bool) (sm : SceneManager) :
  (rasterCoord = None
   \/ (exists coord, rasterCoord = Some coord /\ ~ insideViewport window coord) ->
   shootRayFromCamera intersectObjects window rasterCoord outlineNearest sm = Ok ([], sm))
  /\ (forall coord : Vector2.t,
        rasterCoord = Some coord ->
        insideViewport window coord ->
        exists ndc : Vector2.t,
          (Vector2.x ndc == 2 * (Vector2.x coord / innerWidth window) - 1)%Q
          /\ (Vector2.y ndc == 1 - 2 * (Vector2.y coord / innerHeight window))%Q
          /\ (-1 <= Vector2.x ndc <= 1)%Q
          /\ (-1 <= Vector2.y ndc <= 1)%Q
          /\ match raycastFromCamera intersectObjects ndc
                     (activeCameraManager sm) (raycaster sm) with
             | Ok hits =>
                 exists sm' : SceneManager,
                   shootRayFromCamera intersectObjects window rasterCoord outlineNearest sm
                   = Ok (hits, sm')
             | TypeError =>
                 shootRayFromCamera intersectObjects window rasterCoord outlineNearest sm
                 = TypeError
             end).
Proof.
  split.
  - apply shoot_outside.
  - intros coord -> Hin.
    exists (toNDC window coord).
    destruct (toNDC_bounds window coord Hin) as [Hx Hy].
    split; [cbn; ring|]. split; [cbn; ring|].
    split; [exact Hx|]. split; [exact Hy|].
    destruct (activeCameraManager sm) as [camera|] eqn:Hcam.
    + cbn [raycastFromCamera]. eexists.
      rewrite (shoot_inside intersectObjects window coord outlineNearest sm camera Hin Hcam).
      rewrite nonempty_or_nil. reflexivity.
    + cbn [raycastFromCamera]. apply inViewport_iff in Hin.
      unfold shootRayFromCamera. rewrite Hin, Hcam. reflexivity.
Qed.

Lemma C6_viewport_guard_and_ndc_witness :
  shootRayFromCamera twoHits window800 None (Some true) sceneWithCamera
  = Ok ([], sceneWithCamera)
  /\ exists ndc : Vector2.t,
       (Vector2.x ndc == 2 * (200 / 800) - 1)%Q
       /\ (Vector2.y ndc == 1 - 2 * (150 / 600))%Q
       /\ (-1 <= Vector2.x ndc <= 1)%Q
       /\ (-1 <= Vector2.y ndc <= 1)%Q
       /\ match raycastFromCamera twoHits ndc
                  (activeCameraManager sceneWithCamera) (raycaster sceneWithCamera) with
          | Ok hits =>
              exists sm' : SceneManager,
                shootRayFromCamera twoHits window800
                  (Some {| Vector2.x := 200; Vector2.y := 150 |}) (Some true) sceneWithCamera
                = Ok (hits, sm')
          | TypeError =>
              shootRayFromCamera twoHits window800
                (Some {| Vector2.x := 200; Vector2.y := 150 |}) (Some true) sceneWithCamera
              = TypeError
          end.
Proof.
  split.
  - apply (proj1 (C6_viewport_guard_and_ndc twoHits window800 None (Some true) sceneWithCamera)).
    left. reflexivity.
  - apply (proj2 (C6_viewport_guard_and_ndc twoHits window800
                    (Some {| Vector2.x := 200; Vector2.y := 150 |})
                    (Some true) sceneWithCamera)
             {| Vector2.x := 200; Vector2.y := 150 |}).
    + reflexivity.
    + vm_compute. repeat split; intro H; discriminate H.
Defined.

Lemma nearestFirst_head (nearest : Hit) (others : list Hit) :
  nearestFirst (nearest :: others) ->
  forall h, h ∈ others -> (distance nearest <= distance h)%Q.
Proof.
  intros Hs h Hh. apply StronglySorted_inv in Hs as [_ Hall].
  rewrite List.Forall_forall in Hall. apply Hall, list_elem_of_In, Hh.
Qed.

(** C7. Given an intersection test that reports its hits nearest first,
    for every raster coordinate inside the viewport (and an active
    camera) [shootRayFromCamera] returns the hits of the test unchanged,
    hence in order of non-decreasing distance; and when [outlineNearest] is
    true and there is a hit, the one call added is the renderer's outline
    of the first hit's object, which no other hit is nearer than. *)
Theorem C7_hits_nearest_first
    (intersectObjects :
       Vector2.t -> SceneObject -> list (Object3D + list Object3D) -> list Hit)
    (window : Window) (coord : Vector2.t)
    (outlineNearest : option bool) (sm : SceneManager) (camera : SceneObject) :
  (forall ndc cam objects, nearestFirst (intersectObjects ndc cam objects)) ->
  insideViewport window coord ->
  activeCameraManager sm = Some camera ->
  exists (hits : list Hit) (sm' : SceneManager),
    shootRayFromCamera intersectObjects window (Some coord) outlineNearest sm = Ok (hits, sm')
    /\ hits = intersectObjects (toNDC window coord) camera (RayCastOps.queried (raycaster sm))
    /\ nearestFirst hits
    /\ (outlineNearest = Some true ->
        forall nearest others, hits = nearest :: others ->
          calls sm' = calls sm ++ [RendererOutline [hit_object nearest] camera]
          /\ forall h, h ∈ others -> (distance nearest <= distance h)%Q)
    /\ (outlineNearest <> Some true \/ hits = [] -> sm' = sm).
Proof.
  intros Hsorted Hin Hcam.
  pose proof (shoot_inside intersectObjects window coord outlineNearest sm camera Hin Hcam)
    as Hshoot. cbn zeta in Hshoot.
  set (hits := intersectObjects (toNDC window coord) camera
                 (RayCastOps.queried (raycaster sm))) in *.
  eexists hits, _. split; [exact Hshoot|].
  split; [reflexivity|]. split; [apply Hsorted|]. split.
  - intros -> nearest others Hhits.
    pose proof (Hsorted (toNDC window coord) camera (RayCastOps.queried (raycaster sm)))
      as Hs. fold hits in Hs. rewrite Hhits in Hs |- *.
    split; [reflexivity|]. apply nearestFirst_head, Hs.
  - intros [Hno | ->].
    + destruct outlineNearest as [[|]|]; [congruence | reflexivity | reflexivity].
    + destruct outlineNearest as [[|]|]; reflexivity.
Qed.

Lemma twoHits_nearestFirst (ndc : Vector2.t) (camera : SceneObject)
    (objects : list (Object3D + list Object3D)) :
  nearestFirst (twoHits ndc camera objects).
Proof.
  unfold twoHits. repeat constructor. cbn.
  nra.
Qed.

Lemma C7_hits_nearest_first_witness :
  exists (hits : list Hit) (sm' : SceneManager),
    shootRayFromCamera twoHits window800
      (Some {| Vector2.x := 200; Vector2.y := 150 |}) (Some true) sceneWithCamera
    = Ok (hits, sm')
    /\ hits = twoHits (toNDC window800 {| Vector2.x := 200; Vector2.y := 150 |})
                cameraObject (RayCastOps.queried (raycaster sceneWithCamera))
    /\ nearestFirst hits
    /\ (Some true = Some true ->
        forall nearest others, hits = nearest :: others ->
          calls sm' = calls sceneWithCamera ++ [RendererOutline [hit_object nearest] cameraObject]
          /\ forall h, h ∈ others -> (distance nearest <= distance h)%Q)
    /\ (Some true <> Some true \/ hits = [] -> sm' = sceneWithCamera).
Proof.
  apply (C7_hits_nearest_first twoHits window800
           {| Vector2.x := 200; Vector2.y := 150 |} (Some true) sceneWithCamera cameraObject).
  - exact twoHits_nearestFirst.
  - vm_compute. repeat split; intro H; discriminate H.
  - reflexivity.
Defined.

(** ** RayCast: what [remove] leaves behind *)

Section RayCastFacts.
Implicit Types (rc : RayCast) (n : string) (o : Object3D).

(** [add] records the object under its owner, last. *)
Lemma add_registers rc n o :
  JSMap.get n (raycastObjectMap (RayCastOps.add n o rc))
  = Some (default [] (JSMap.get n (raycastObjectMap rc)) ++ [o]).
Proof.
  unfold RayCastOps.add. cbn.
  destruct (JSMap.get n (raycastObjectMap rc)); cbn; apply get_set_eq.
Qed.

(** [remove] of a name the map does not know changes nothing. *)
Lemma remove_unknown rc n :
  JSMap.get n (raycastObjectMap rc) = None -> RayCastOps.remove n rc = rc.
Proof. intros Hget. unfold RayCastOps.remove. by rewrite Hget. Qed.

(** [remove] never changes the map: the owner keeps its objects. *)
Lemma remove_keeps_map rc n :
  raycastObjectMap (RayCastOps.remove n rc) = raycastObjectMap rc.
Proof. unfold RayCastOps.remove. by destruct (JSMap.get n _). Qed.

(** After [remove] of a known name the array has one element per owner,
    the owner's array: what the loop of splices did is lost. *)
Lemma remove_known rc n objects :
  JSMap.get n (raycastObjectMap rc) = Some objects ->
  raycastObjects (RayCastOps.remove n rc) = Arr <$> JSMap.keys (raycastObjectMap rc).
Proof. intros Hget. unfold RayCastOps.remove. by rewrite Hget. Qed.

(** So no element of the array is an object any more, whoever owns it, *)
Lemma remove_known_no_object rc n objects o :
  JSMap.get n (raycastObjectMap rc) = Some objects ->
  Obj o ∉ raycastObjects (RayCastOps.remove n rc).
Proof.
  intros Hget. rewrite (remove_known rc n objects Hget).
  intros Hin. apply list_elem_of_fmap in Hin as (k & Hk & _). discriminate Hk.
Qed.

(** and every object of the removed owner is still held by the array,
    inside the owner's array. *)
Lemma remove_known_still_held rc n objects o :
  JSMap.get n (raycastObjectMap rc) = Some objects ->
  o ∈ objects ->
  o ∈ RayCastOps.held (RayCastOps.remove n rc).
Proof.
  intros Hget Ho. unfold RayCastOps.held, RayCastOps.queried.
  apply list_elem_of_bind. exists (inr objects). split; [exact Ho|].
  apply list_elem_of_fmap. exists (Arr n). split.
  - cbn. by rewrite remove_keeps_map, Hget.
  - rewrite (remove_known rc n objects Hget).
    apply list_elem_of_fmap. exists n. split; [done|].
    eapply get_Some_keys, Hget.
Qed.

(** A second [remove] of the same name rebuilds the same array. *)
Lemma remove_again rc n :
  RayCastOps.remove n (RayCastOps.remove n rc) = RayCastOps.remove n rc.
Proof.
  unfold RayCastOps.remove at 2 3.
  destruct (JSMap.get n (raycastObjectMap rc)) as [objects|] eqn:Hget.
  - unfold RayCastOps.remove. cbn. by rewrite Hget.
  - by apply remove_unknown.
Qed.
End RayCastFacts.

(** C2 (the code departs from the claim).  One object is added under "a"
    and one under "b", then "a" is removed.  The map still lists the
    object of "a"; the array used by the intersection queries is not flat
    any more: its elements are the arrays of "a" and of "b", so the object
    added under "a" is still held by it, and the object of "b" is no
    longer an element of it.  A second removal of "a" changes nothing
    further, and the removal of a name never added changes nothing. *)
Theorem C2_remove_leaves_owner_array :
  let rc := RayCastOps.add "b" 2 (RayCastOps.add "a" 1 RayCastOps.empty) in
  raycastObjects rc = [Obj 1; Obj 2]
  /\ RayCastOps.remove "a" rc
     = {| raycastObjectMap := [("a", [1]); ("b", [2])];
          raycastObjects := [Arr "a"; Arr "b"] |}
  /\ RayCastOps.queried (RayCastOps.remove "a" rc) = [inr [1]; inr [2]]
  /\ 1 ∈ RayCastOps.held (RayCastOps.remove "a" rc)
  /\ RayCastOps.isFlat (RayCastOps.remove "a" rc) = false
  /\ (Obj 2 ∉ raycastObjects (RayCastOps.remove "a" rc))
  /\ RayCastOps.remove "a" (RayCastOps.remove "a" rc) = RayCastOps.remove "a" rc
  /\ RayCastOps.remove "c" rc = rc.
Proof.
  cbv zeta. repeat split.
  - apply (remove_known_still_held _ "a" [1]); [reflexivity | apply list_elem_of_here].
  - apply (remove_known_no_object _ "a" [1]). reflexivity.
Qed.

(** ** Scene manager: the calls and the state after each operation *)

Section SceneManagerFacts.
Implicit Types (sm : SceneManager) (o : SceneObject) (n : string).

Lemma emits_nil sm : emits [] sm = sm.
Proof. destruct sm. unfold emits. cbn. by rewrite app_nil_r. Qed.

Lemma emit_emits e es sm :
  SceneManagerOps.emit e (emits es sm) = emits (es ++ [e]) sm.
Proof. unfold SceneManagerOps.emit, emits. cbn. by rewrite app_assoc. Qed.

Lemma emits_emits es1 es2 sm : emits es2 (emits es1 sm) = emits (es1 ++ es2) sm.
Proof. unfold emits. cbn. by rewrite app_assoc. Qed.

Lemma foldl_emit {A : Type} (f : A -> Event) (l : list A) sm :
  foldl (fun s x => SceneManagerOps.emit (f x) s) sm l = emits (f <$> l) sm.
Proof.
  revert sm. induction l as [|x l IH]; intros sm; cbn.
  - by rewrite emits_nil.
  - rewrite IH. unfold SceneManagerOps.emit, emits. cbn.
    by rewrite <- app_assoc.
Qed.

Lemma foldl_addDrawable o (hasLights : bool) (ds : list Drawable) sm :
  foldl (SceneManagerOps.addDrawable o hasLights) sm ds
  = SceneManagerOps.withRaycaster
      (fun rc => foldl (fun r d => if isRayCastable d
                                   then RayCastOps.add (name o) (drawable_object d) r
                                   else r) rc ds)
      (emits ((fun d => RendererAdd (drawable_object d) hasLights) <$> ds) sm).
Proof.
  revert sm. induction ds as [|d ds IH]; intros sm; cbn.
  - destruct sm. unfold SceneManagerOps.withRaycaster, emits. cbn.
    by rewrite app_nil_r.
  - rewrite IH. unfold SceneManagerOps.addDrawable.
    destruct (isRayCastable d);
      unfold SceneManagerOps.withRaycaster, SceneManagerOps.emit, emits; cbn;
      by rewrite <- app_assoc.
Qed.

Lemma foldl_removeDrawable o (ds : list Drawable) sm :
  foldl (SceneManagerOps.removeDrawable o) sm ds
  = SceneManagerOps.withRaycaster
      (fun rc => foldl (fun r d => if isRayCastable d
                                   then RayCastOps.remove (name o) r else r) rc ds)
      (emits ((fun d => RendererRemove (drawable_object d)) <$> ds) sm).
Proof.
  revert sm. induction ds as [|d ds IH]; intros sm; cbn.
  - destruct sm. unfold SceneManagerOps.withRaycaster, emits. cbn.
    by rewrite app_nil_r.
  - rewrite IH. unfold SceneManagerOps.removeDrawable.
    destruct (isRayCastable d);
      unfold SceneManagerOps.withRaycaster, SceneManagerOps.emit, emits; cbn;
      by rewrite <- app_assoc.
Qed.

(** [addToScene] makes the renderer calls of the object and hands its
    ray-castable drawables to the ray caster; nothing else changes. *)
Lemma addToScene_eq o sm :
  SceneManagerOps.addToScene o sm
  = SceneManagerOps.withRaycaster (castAdded o) (emits (addCalls o) sm).
Proof.
  unfold SceneManagerOps.addToScene. rewrite foldl_addDrawable, foldl_emit.
  unfold SceneManagerOps.withRaycaster, emits, addCalls, castAdded. cbn.
  by rewrite <- app_assoc.
Qed.

Lemma removeFromScene_eq o sm :
  SceneManagerOps.removeFromScene o sm
  = SceneManagerOps.withRaycaster (castRemoved o) (emits (removeCalls o) sm).
Proof.
  unfold SceneManagerOps.removeFromScene. rewrite foldl_removeDrawable, foldl_emit.
  unfold SceneManagerOps.withRaycaster, emits, removeCalls, castRemoved. cbn.
  by rewrite <- app_assoc.
Qed.

(** [checkForMessages] delivers the queue of the name, in order, and
    removes the queue. *)
Lemma checkForMessages_eq o sm :
  SceneManagerOps.checkForMessages o sm
  = SceneManagerOps.withMessageMap (delete (name o))
      (emits (SceneManagerOps.deliver o <$> default [] (messageMap sm !! name o)) sm).
Proof.
  unfold SceneManagerOps.checkForMessages.
  destruct (messageMap sm !! name o) as [messages|] eqn:Hq; cbn.
  - by rewrite foldl_emit.
  - rewrite emits_nil. destruct sm. unfold SceneManagerOps.withMessageMap. cbn in *.
    by rewrite delete_id.
Qed.

(** The array of the ray caster grows by the ray-castable objects. *)
Lemma castAdded_objects o (rc : RayCast) :
  raycastObjects (castAdded o rc) = raycastObjects rc ++ (Obj <$> picked o).
Proof.
  unfold castAdded, picked. revert rc.
  induction (getDrawables o) as [|d ds IH]; intros rc.
  - cbn. by rewrite app_nil_r.
  - rewrite filter_cons. cbn [foldl]. rewrite IH.
    destruct (isRayCastable d) eqn:Hd.
    + rewrite decide_True by done. cbn. by rewrite <- app_assoc.
    + rewrite decide_False by (by intros ?). done.
Qed.

Lemma callsSince_app sm sm' (evs : list Event) :
  calls sm' = calls sm ++ evs -> callsSince sm sm' = evs.
Proof. intros Heq. unfold callsSince. rewrite Heq. apply drop_app_length. Qed.

(** *** [register], field by field *)

(** The calls of [register]: the renderer calls and the start hook when
    the object is ready, then the deliveries of the pending messages. *)
Lemma register_calls (isReady : Readiness) o sm :
  calls (SceneManagerOps.register isReady o sm)
  = calls sm
    ++ (if isReady o then addCalls o ++ [OnSceneStart o] else [])
    ++ (SceneManagerOps.deliver o <$> default [] (messageMap sm !! name o)).
Proof.
  unfold SceneManagerOps.register. rewrite checkForMessages_eq, addToScene_eq.
  destruct (isDrawable o), (isReady o); cbn; rewrite <- ?app_assoc; done.
Qed.

Lemma register_messageMap (isReady : Readiness) o sm :
  messageMap (SceneManagerOps.register isReady o sm) = delete (name o) (messageMap sm).
Proof.
  unfold SceneManagerOps.register. rewrite checkForMessages_eq, addToScene_eq.
  destruct (isDrawable o), (isReady o); done.
Qed.

Lemma register_sceneObjectMap (isReady : Readiness) o sm :
  sceneObjectMap (SceneManagerOps.register isReady o sm)
  = JSMap.set (name o) o (sceneObjectMap sm).
Proof.
  unfold SceneManagerOps.register. rewrite checkForMessages_eq, addToScene_eq.
  destruct (isDrawable o), (isReady o); done.
Qed.

Lemma register_inactive (isReady : Readiness) o sm :
  inactiveObjNameMap (SceneManagerOps.register isReady o sm)
  = if isDrawable o && negb (isReady o)
    then JSMap.set (name o) () (inactiveObjNameMap sm)
    else inactiveObjNameMap sm.
Proof.
  unfold SceneManagerOps.register. rewrite checkForMessages_eq, addToScene_eq.
  destruct (isDrawable o), (isReady o); done.
Qed.

Lemma register_raycaster (isReady : Readiness) o sm :
  raycaster (SceneManagerOps.register isReady o sm)
  = if isReady o then castAdded o (raycaster sm) else raycaster sm.
Proof.
  unfold SceneManagerOps.register. rewrite checkForMessages_eq, addToScene_eq.
  destruct (isDrawable o), (isReady o); done.
Qed.

Lemma register_camera (isReady : Readiness) o sm :
  activeCameraManager (SceneManagerOps.register isReady o sm) = activeCameraManager sm.
Proof.
  unfold SceneManagerOps.register. rewrite checkForMessages_eq, addToScene_eq.
  destruct (isDrawable o), (isReady o); done.
Qed.

(** *** [unregister], field by field *)

Lemma unregister_unknown n sm :
  JSMap.get n (sceneObjectMap sm) = None -> SceneManagerOps.unregister n sm = sm.
Proof. intros Hget. unfold SceneManagerOps.unregister. by rewrite Hget. Qed.

Lemma unregister_known n o sm :
  JSMap.get n (sceneObjectMap sm) = Some o ->
  SceneManagerOps.unregister n sm
  = SceneManagerOps.withSceneObjectMap (JSMap.delete n)
      (SceneManagerOps.withRaycaster (castRemoved o)
         (emits (removeCalls o ++ [OnSceneEnd o]) sm)).
Proof.
  intros Hget. unfold SceneManagerOps.unregister. rewrite Hget, removeFromScene_eq.
  unfold SceneManagerOps.withSceneObjectMap, SceneManagerOps.withRaycaster,
    SceneManagerOps.emit, emits. cbn. by rewrite <- app_assoc.
Qed.

(** *** Counting hooks in the calls *)

Lemma startsOf_app o (es1 es2 : list Event) :
  startsOf o (es1 ++ es2) = startsOf o es1 + startsOf o es2.
Proof. unfold startsOf. by rewrite filter_app, length_app. Qed.

Lemma startsOf_none o (es : list Event) :
  (forall e, e ∈ es -> e <> OnSceneStart o) -> startsOf o es = 0.
Proof.
  intros Hno. unfold startsOf. induction es as [|e es IH]; [done|].
  rewrite filter_cons, decide_False.
  - apply IH. intros e' He'. apply Hno. by right.
  - apply Hno. by left.
Qed.

Lemma startsOf_addCalls o o' : startsOf o (addCalls o') = 0.
Proof.
  apply startsOf_none. intros e He. unfold addCalls in He.
  apply elem_of_app in He as [He|He];
    apply list_elem_of_fmap in He as (x & -> & _); discriminate.
Qed.

Lemma startsOf_removeCalls o o' : startsOf o (removeCalls o') = 0.
Proof.
  apply startsOf_none. intros e He. unfold removeCalls in He.
  apply elem_of_app in He as [He|He];
    apply list_elem_of_fmap in He as (x & -> & _); discriminate.
Qed.

Lemma startsOf_deliver o o' (msgs : list Message) :
  startsOf o (SceneManagerOps.deliver o' <$> msgs) = 0.
Proof.
  apply startsOf_none. intros e He.
  apply list_elem_of_fmap in He as (x & -> & _). discriminate.
Qed.

Lemma startsOf_one o : startsOf o [OnSceneStart o] = 1.
Proof. unfold startsOf. rewrite filter_cons, decide_True; done. Qed.

Lemma messagesIn_app (es1 es2 : list Event) :
  messagesIn (es1 ++ es2) = messagesIn es1 ++ messagesIn es2.
Proof. unfold messagesIn. apply filter_app. Qed.

Lemma messagesIn_none (es : list Event) :
  (forall e, e ∈ es -> isMessage e = false) -> messagesIn es = [].
Proof.
  intros Hno. unfold messagesIn. induction es as [|e es IH]; [done|].
  rewrite filter_cons, decide_False.
  - apply IH. intros e' He'. apply Hno. by right.
  - rewrite Hno; [done | by left].
Qed.

Lemma messagesIn_addCalls o : messagesIn (addCalls o) = [].
Proof.
  apply messagesIn_none. intros e He. unfold addCalls in He.
  apply elem_of_app in He as [He|He];
    apply list_elem_of_fmap in He as (x & -> & _); done.
Qed.

Lemma messagesIn_deliver o (msgs : list Message) :
  messagesIn (SceneManagerOps.deliver o <$> msgs) = SceneManagerOps.deliver o <$> msgs.
Proof.
  unfold messagesIn. induction msgs as [|m msgs IH]; [done|].
  rewrite fmap_cons, filter_cons, decide_True by done. by rewrite IH.
Qed.
End SceneManagerFacts.

(** ** Registration *)

(** C3 (as worded, refuted).  An object that is neither drawable nor
    ready is registered: it is not parked, and contrary to the wording it
    is not added to the renderer either and its start hook is not called. *)
Lemma C3_not_drawable_not_ready_counterexample :
  ~ registerAsWorded noneReady inputObject SceneManagerOps.initial.
Proof.
  unfold registerAsWorded. cbn. intros [Hcalls _]. discriminate Hcalls.
Qed.

(** C3 (amended).  [register] stores the object under its name and
    clears the queue of that name.  If the object is ready, drawable or
    not, its drawables and lights are added to the renderer, its
    ray-castable drawables are handed to the ray caster, and its start
    hook is called once.  If it is not ready, nothing is added and the
    start hook is not called; it is parked in the awaiting set when it is
    drawable, and left out of it when it is not.  In every case the
    pending messages of its name are delivered last, in order. *)
Theorem C3_register_by_readiness
    (isReady : Readiness) (o : SceneObject) (sm : SceneManager) :
  let sm' := SceneManagerOps.register isReady o sm in
  let pending := default [] (messageMap sm !! name o) in
  JSMap.get (name o) (sceneObjectMap sm') = Some o
  /\ messageMap sm' = delete (name o) (messageMap sm)
  /\ startsOf o (callsSince sm sm') = (if isReady o then 1 else 0)
  /\ (if isReady o
      then callsSince sm sm'
           = addCalls o ++ [OnSceneStart o] ++ (SceneManagerOps.deliver o <$> pending)
           /\ raycastObjects (raycaster sm')
              = raycastObjects (raycaster sm) ++ (Obj <$> picked o)
           /\ inactiveObjNameMap sm' = inactiveObjNameMap sm
      else callsSince sm sm' = (SceneManagerOps.deliver o <$> pending)
           /\ raycaster sm' = raycaster sm
           /\ (if isDrawable o
               then awaiting (name o) sm' = true
               else inactiveObjNameMap sm' = inactiveObjNameMap sm)).
Proof.
  intros sm' pending.
  assert (Hcalls : callsSince sm sm'
                   = (if isReady o then addCalls o ++ [OnSceneStart o] else [])
                     ++ (SceneManagerOps.deliver o <$> pending)).
  { apply callsSince_app. unfold sm'. by rewrite register_calls. }
  split; [unfold sm'; rewrite register_sceneObjectMap; apply get_set_eq|].
  split; [apply register_messageMap|].
  split.
  - rewrite Hcalls, startsOf_app, startsOf_deliver.
    destruct (isReady o).
    + by rewrite startsOf_app, startsOf_addCalls, startsOf_one.
    + done.
  - unfold sm'. rewrite register_raycaster, register_inactive.
    fold sm'. rewrite Hcalls. destruct (isReady o) eqn:Hr.
    + rewrite andb_false_r, castAdded_objects, <- app_assoc. done.
    + split; [done|]. split; [done|].
      destruct (isDrawable o) eqn:Hd; [|done].
      unfold awaiting, JSMap.has. unfold sm'.
      rewrite register_inactive, Hd, Hr. cbn.
      rewrite get_set_eq. by apply bool_decide_eq_true.
Qed.

(** ** Messaging *)

Section MessagingFacts.
Implicit Types (sm : SceneManager) (o : SceneObject).

(** A message for a name that is not registered is appended to the queue
    of that name; nothing else changes and nothing is called. *)
Lemma broadcastTo_unregistered (from to : string) (data : Data) sm :
  JSMap.get to (sceneObjectMap sm) = None ->
  SceneManagerOps.broadcastTo from to data sm
  = SceneManagerOps.withMessageMap
      (insert to (default [] (messageMap sm !! to)
                  ++ [ {| msg_from := from; msg_to := to; msg_data := data |} ]))
      sm.
Proof.
  intros Hget. unfold SceneManagerOps.broadcastTo. rewrite Hget.
  by destruct (messageMap sm !! to).
Qed.

Lemma broadcastTo_many (sends : list (string * Data)) (to : string) sm :
  JSMap.get to (sceneObjectMap sm) = None ->
  let sm1 := foldl (fun s m => SceneManagerOps.broadcastTo m.1 to m.2 s) sm sends in
  sceneObjectMap sm1 = sceneObjectMap sm
  /\ calls sm1 = calls sm
  /\ default [] (messageMap sm1 !! to)
     = default [] (messageMap sm !! to)
       ++ ((fun m => {| msg_from := m.1; msg_to := to; msg_data := m.2 |}) <$> sends).
Proof.
  revert sm. induction sends as [|[from data] sends IH]; intros sm Hget; cbn.
  - by rewrite app_nil_r.
  - rewrite (broadcastTo_unregistered from to data sm Hget).
    destruct (IH (SceneManagerOps.withMessageMap
                    (insert to (default [] (messageMap sm !! to)
                       ++ [ {| msg_from := from; msg_to := to; msg_data := data |} ]))
                    sm) Hget) as (Hreg & Hcalls & Hqueue).
    cbn zeta in *. rewrite Hreg, Hcalls, Hqueue. cbn.
    rewrite lookup_insert_eq. cbn. by rewrite <- app_assoc.
Qed.

Lemma broadcastKeys_eq (from : string) (data : Data) (ks : list string) sm :
  (forall k, k ∈ ks -> is_Some (JSMap.get k (sceneObjectMap sm))) ->
  SceneManagerOps.broadcastKeys from data ks sm
  = Ok (emits (recipients from data (sceneObjectMap sm) ks) sm).
Proof.
  revert sm. induction ks as [|k ks IH]; intros sm Hks; cbn.
  - by rewrite emits_nil.
  - assert (Hrest : forall k', k' ∈ ks -> is_Some (JSMap.get k' (sceneObjectMap sm)))
      by (intros k' Hk'; apply Hks; by right).
    destruct (decide (k ≠ from)) as [Hne|Heq].
    + destruct (Hks k) as [o Ho]; [by left|]. rewrite Ho.
      rewrite (IH (SceneManagerOps.emit (OnMessage o from data) sm)) by exact Hrest.
      cbn [sceneObjectMap SceneManagerOps.emit].
      f_equal. unfold SceneManagerOps.emit, emits. cbn. by rewrite <- app_assoc.
    + by rewrite IH.
Qed.
End MessagingFacts.

(** C1. While no object is registered under [to], every
    [broadcastTo(from, to, data)] appends the message to the queue of [to]
    and calls nothing.  When an object of that name registers, the calls
    of [onMessage] made by the registration are the queued messages, each
    once and in the order of arrival, delivered to that object at the end
    of the registration; the queue of the name is removed, so a later
    registration of the object delivers nothing. *)
Theorem C1_mailbox_delivered_on_register
    (isReady : Readiness) (sends : list (string * Data)) (to : string)
    (o : SceneObject) (sm : SceneManager) :
  JSMap.get to (sceneObjectMap sm) = None ->
  name o = to ->
  let queue := default [] (messageMap sm !! to) in
  let sent := (fun m => {| msg_from := m.1; msg_to := to; msg_data := m.2 |}) <$> sends in
  let sm1 := foldl (fun s m => SceneManagerOps.broadcastTo m.1 to m.2 s) sm sends in
  let sm2 := SceneManagerOps.register isReady o sm1 in
  (forall from data,
      messageMap (SceneManagerOps.broadcastTo from to data sm)
      = <[to := queue ++ [ {| msg_from := from; msg_to := to; msg_data := data |} ]]>
          (messageMap sm)
      /\ calls (SceneManagerOps.broadcastTo from to data sm) = calls sm)
  /\ default [] (messageMap sm1 !! to) = queue ++ sent
  /\ calls sm1 = calls sm
  /\ messagesIn (callsSince sm sm2) = (SceneManagerOps.deliver o <$> queue ++ sent)
  /\ (SceneManagerOps.deliver o <$> queue ++ sent) `suffix_of` calls sm2
  /\ messageMap sm2 !! to = None
  /\ (forall isReady' : Readiness,
        messagesIn (callsSince sm2 (SceneManagerOps.register isReady' o sm2)) = []).
Proof.
  intros Hget Hname queue sent sm1 sm2.
  destruct (broadcastTo_many sends to sm Hget) as (Hreg1 & Hcalls1 & Hqueue1).
  fold sm1 queue sent in Hreg1, Hcalls1, Hqueue1.
  assert (Hcalls2 : calls sm2
                    = calls sm
                      ++ (if isReady o then addCalls o ++ [OnSceneStart o] else [])
                      ++ (SceneManagerOps.deliver o <$> queue ++ sent)).
  { unfold sm2. by rewrite register_calls, Hname, Hqueue1, Hcalls1. }
  assert (Hgone : messageMap sm2 !! to = None).
  { unfold sm2. rewrite register_messageMap, Hname. apply lookup_delete_eq. }
  split.
  { intros from data. by rewrite (broadcastTo_unregistered from to data sm Hget). }
  split; [exact Hqueue1|]. split; [exact Hcalls1|]. split.
  { rewrite (callsSince_app sm sm2 _ Hcalls2), messagesIn_app, messagesIn_deliver.
    destruct (isReady o); [|done].
    by rewrite messagesIn_app, messagesIn_addCalls. }
  split.
  { rewrite Hcalls2, app_assoc. by apply suffix_app_r. }
  split; [exact Hgone|].
  intros isReady'.
  rewrite (callsSince_app sm2 _ _ (register_calls isReady' o sm2)).
  rewrite Hname, Hgone. cbn. rewrite app_nil_r.
  destruct (isReady' o); [|done].
  by rewrite messagesIn_app, messagesIn_addCalls.
Qed.

Lemma C1_mailbox_delivered_on_register_witness :
  let sm1 := SceneManagerOps.broadcastTo "Model" "Input" (Num 2)
               (SceneManagerOps.broadcastTo "Camera" "Input" Null sceneWithCamera) in
  let sm2 := SceneManagerOps.register allReady inputObject sm1 in
  messageMap sm1 !! "Input"
  = Some [ {| msg_from := "Camera"; msg_to := "Input"; msg_data := Null |};
           {| msg_from := "Model"; msg_to := "Input"; msg_data := Num 2 |} ]
  /\ messagesIn (callsSince sceneWithCamera sm2)
     = [ OnMessage inputObject "Camera" Null; OnMessage inputObject "Model" (Num 2) ]
  /\ messageMap sm2 !! "Input" = None.
Proof.
  pose proof (C1_mailbox_delivered_on_register allReady
                [("Camera", Null); ("Model", Num 2)] "Input" inputObject sceneWithCamera
                eq_refl eq_refl) as (_ & _ & _ & Hdelivered & _ & Hgone & _).
  split; [reflexivity|]. split; [exact Hdelivered | exact Hgone].
Defined.

(** C9. [broadcastToAll(from, data)] does not throw; it calls [onMessage]
    with [from] and [data] on every object registered under a name other
    than [from], and makes no other call; the mailbox and the rest of the
    state are unchanged. *)
Theorem C9_broadcastToAll_reaches_registered
    (from : string) (data : Data) (sm : SceneManager) :
  exists delivered : list Event,
    SceneManagerOps.broadcastToAll from data sm = Ok (emits delivered sm)
    /\ messageMap (emits delivered sm) = messageMap sm
    /\ delivered = recipients from data (sceneObjectMap sm) (JSMap.keys (sceneObjectMap sm))
    /\ (forall k o, JSMap.get k (sceneObjectMap sm) = Some o -> k ≠ from ->
          OnMessage o from data ∈ delivered)
    /\ (forall e, e ∈ delivered ->
          exists k o, e = OnMessage o from data
                      /\ JSMap.get k (sceneObjectMap sm) = Some o /\ k ≠ from).
Proof.
  eexists. split.
  { unfold SceneManagerOps.broadcastToAll. apply broadcastKeys_eq.
    intros k Hk. by apply keys_get_Some. }
  split; [reflexivity|]. split; [reflexivity|]. split.
  - intros k o Hget Hne. unfold recipients. apply list_elem_of_bind.
    exists k. split; [|by eapply get_Some_keys].
    rewrite decide_True by done. rewrite Hget. by left.
  - intros e He. unfold recipients in He.
    apply list_elem_of_bind in He as (k & He & Hk).
    destruct (decide (k ≠ from)) as [Hne|]; [|by apply elem_of_nil in He].
    destruct (JSMap.get k (sceneObjectMap sm)) as [o|] eqn:Hget;
      [|by apply elem_of_nil in He].
    apply list_elem_of_singleton in He. eauto.
Qed.

Example broadcastToAll_example :
  let sm := SceneManagerOps.register allReady inputObject
              (SceneManagerOps.broadcastTo "Camera" "Model" Null sceneWithCamera) in
  exists sm',
    SceneManagerOps.broadcastToAll "Input" (Str "key") sm = Ok sm'
    /\ callsSince sm sm' = [OnMessage cameraObject "Input" (Str "key")]
    /\ messageMap sm' = messageMap sm
    /\ messageMap sm' !! "Model"
       = Some [ {| msg_from := "Camera"; msg_to := "Model"; msg_data := Null |} ].
Proof. eexists. repeat split; reflexivity. Qed.

(** ** The active names *)

Section ActiveFacts.
Implicit Types (sm : SceneManager) (o : SceneObject) (n : string).

Lemma active_calls n sm sm' (evs : list Event) :
  calls sm' = calls sm ++ evs ->
  active n sm' = foldl (lifecycleStep n) (active n sm) evs.
Proof. intros Heq. unfold active. by rewrite Heq, foldl_app. Qed.

Lemma lifecycle_neutral n (b : bool) (es : list Event) :
  (forall e, e ∈ es -> forall b', lifecycleStep n b' e = b') ->
  foldl (lifecycleStep n) b es = b.
Proof.
  revert b. induction es as [|e es IH]; intros b Hes; [done|]. cbn.
  rewrite (Hes e) by (by left). apply IH. intros e' He'. apply Hes. by right.
Qed.

Lemma lifecycle_addCalls n (b : bool) o : foldl (lifecycleStep n) b (addCalls o) = b.
Proof.
  apply lifecycle_neutral. intros e He b'. unfold addCalls in He.
  apply elem_of_app in He as [He|He];
    apply list_elem_of_fmap in He as (x & -> & _); done.
Qed.

Lemma lifecycle_removeCalls n (b : bool) o : foldl (lifecycleStep n) b (removeCalls o) = b.
Proof.
  apply lifecycle_neutral. intros e He b'. unfold removeCalls in He.
  apply elem_of_app in He as [He|He];
    apply list_elem_of_fmap in He as (x & -> & _); done.
Qed.

Lemma lifecycle_deliver n (b : bool) o (msgs : list Message) :
  foldl (lifecycleStep n) b (SceneManagerOps.deliver o <$> msgs) = b.
Proof.
  apply lifecycle_neutral. intros e He b'.
  apply list_elem_of_fmap in He as (x & -> & _). done.
Qed.

(** [register] makes the name of a ready object active and leaves the
    other names as they were. *)
Lemma active_register (isReady : Readiness) o n sm :
  active n (SceneManagerOps.register isReady o sm)
  = if isReady o && bool_decide (name o = n) then true else active n sm.
Proof.
  rewrite (active_calls n sm _ _ (register_calls isReady o sm)).
  rewrite foldl_app, lifecycle_deliver.
  destruct (isReady o); cbn; [|done].
  rewrite foldl_app, lifecycle_addCalls. cbn.
  destruct (decide (name o = n)) as [Heq|Hne].
  - by rewrite bool_decide_eq_true_2.
  - by rewrite bool_decide_eq_false_2.
Qed.

(** [unregister] of a registered object makes its name inactive. *)
Lemma active_unregister n0 o n sm :
  JSMap.get n0 (sceneObjectMap sm) = Some o ->
  active n (SceneManagerOps.unregister n0 sm)
  = if bool_decide (name o = n) then false else active n sm.
Proof.
  intros Hget. rewrite (unregister_known n0 o sm Hget).
  rewrite (active_calls n sm _ (removeCalls o ++ [OnSceneEnd o])) by done.
  rewrite foldl_app, lifecycle_removeCalls. cbn.
  destruct (decide (name o = n)) as [Heq|Hne].
  - by rewrite bool_decide_eq_true_2.
  - by rewrite bool_decide_eq_false_2.
Qed.
End ActiveFacts.

(** ** Re-registration *)

(** C5 (as worded, refuted).  A model still loading is registered, and
    so awaits readiness; it is unregistered and registered again while
    still loading: it is parked again, its name is not active and its
    start hook is not called. *)
Lemma C5_reregister_while_loading_counterexample :
  ~ reregisterAsWorded noneReady modelObject
      (SceneManagerOps.register noneReady modelObject SceneManagerOps.initial).
Proof.
  intros Hclaim. destruct (Hclaim eq_refl) as [Hactive _].
  vm_compute in Hactive. discriminate Hactive.
Qed.

(** C5 (amended).  For a registered name whose object is ready when it
    is registered again: [unregister] of the name followed by [register]
    of the same object removes the object from the scene, calls its end
    hook, adds it to the scene again and calls its start hook, exactly
    once; afterwards the name is registered and active. *)
Theorem C5_reregister_when_ready
    (isReady : Readiness) (o : SceneObject) (sm : SceneManager) :
  JSMap.get (name o) (sceneObjectMap sm) = Some o ->
  isReady o = true ->
  let sm' := SceneManagerOps.register isReady o (SceneManagerOps.unregister (name o) sm) in
  callsSince sm sm'
  = removeCalls o ++ [OnSceneEnd o] ++ addCalls o ++ [OnSceneStart o]
    ++ (SceneManagerOps.deliver o <$> default [] (messageMap sm !! name o))
  /\ startsOf o (callsSince sm sm') = 1
  /\ active (name o) sm' = true
  /\ JSMap.get (name o) (sceneObjectMap sm') = Some o.
Proof.
  intros Hget Hready sm'.
  assert (Hcalls : callsSince sm sm'
                   = removeCalls o ++ [OnSceneEnd o] ++ addCalls o ++ [OnSceneStart o]
                     ++ (SceneManagerOps.deliver o <$> default [] (messageMap sm !! name o))).
  { apply callsSince_app. unfold sm'.
    rewrite register_calls, Hready, (unregister_known _ o sm Hget). cbn.
    by rewrite <- !app_assoc. }
  split; [exact Hcalls|]. split.
  - rewrite Hcalls, !startsOf_app, startsOf_removeCalls, startsOf_addCalls,
      startsOf_deliver, startsOf_one.
    rewrite (startsOf_none o [OnSceneEnd o]); [done|].
    intros e He. apply list_elem_of_singleton in He as ->. discriminate.
  - split.
    + unfold sm'. rewrite active_register, Hready, bool_decide_eq_true_2; done.
    + unfold sm'. rewrite register_sceneObjectMap. apply get_set_eq.
Qed.

Lemma C5_reregister_when_ready_witness :
  let sm := SceneManagerOps.register noneReady modelObject sceneWithCamera in
  JSMap.get "Model" (sceneObjectMap sm) = Some modelObject
  /\ allReady modelObject = true
  /\ startsOf modelObject
       (callsSince sm (SceneManagerOps.register allReady modelObject
                         (SceneManagerOps.unregister "Model" sm))) = 1
  /\ active "Model" (SceneManagerOps.register allReady modelObject
                       (SceneManagerOps.unregister "Model" sm)) = true.
Proof.
  split; [reflexivity|]. split; [reflexivity|].
  pose proof (C5_reregister_when_ready allReady modelObject
                (SceneManagerOps.register noneReady modelObject sceneWithCamera)
                eq_refl eq_refl) as (_ & Hstarts & Hactive & _).
  split; [exact Hstarts | exact Hactive].
Defined.

(** ** The registry invariant *)

(** C4 (as worded, refuted).  After the registration of an object that
    is neither drawable nor ready, its name is registered and is neither
    active nor awaiting. *)
Lemma C4_registered_neither_active_nor_awaiting_counterexample :
  ~ registryInvariant (SceneManagerOps.register noneReady inputObject SceneManagerOps.initial).
Proof.
  intros Hinv. destruct (Hinv "Input") as [Hxor _].
  specialize (Hxor eq_refl). vm_compute in Hxor. discriminate Hxor.
Qed.

Section InvariantFacts.
Implicit Types (sm : SceneManager) (o : SceneObject) (n : string).

Lemma has_keys {V : Type} n (m : list (string * V)) :
  JSMap.has n m = true <-> n ∈ JSMap.keys m.
Proof.
  unfold JSMap.has. rewrite bool_decide_eq_true. split.
  - intros [v Hv]. by eapply get_Some_keys.
  - apply keys_get_Some.
Qed.

Lemma coherent_registryInvariant sm : coherent sm -> registryInvariant sm.
Proof.
  intros Hco n. unfold registered, awaiting. rewrite !has_keys. split.
  - intros Hreg. destruct (decide (n ∈ JSMap.keys (inactiveObjNameMap sm))) as [Hin|Hout].
    + apply has_keys in Hin as Hhas. rewrite Hhas.
      destruct (active n sm) eqn:Hact; [|done].
      apply (active_iff sm Hco) in Hact as [_ Hno]. done.
    + assert (Hact : active n sm = true) by (by apply (active_iff sm Hco)).
      rewrite Hact. destruct (JSMap.has n (inactiveObjNameMap sm)) eqn:Hhas; [|done].
      apply has_keys in Hhas. done.
  - apply (awaiting_registered sm Hco).
Qed.

Lemma coherent_initial : coherent SceneManagerOps.initial.
Proof.
  split; cbn.
  - apply NoDup_nil_2.
  - apply NoDup_nil_2.
  - intros k o Hget. discriminate Hget.
  - intros n Hn. by apply elem_of_nil in Hn.
  - intros n. split; [intros H; discriminate H | intros [H _]; by apply elem_of_nil in H].
Qed.

(** Calls that are neither start nor end hooks keep the facts. *)
Lemma coherent_neutral sm sm' (evs : list Event) :
  coherent sm ->
  sceneObjectMap sm' = sceneObjectMap sm ->
  inactiveObjNameMap sm' = inactiveObjNameMap sm ->
  calls sm' = calls sm ++ evs ->
  (forall e, e ∈ evs -> forall b, forall n, lifecycleStep n b e = b) ->
  coherent sm'.
Proof.
  intros [H1 H2 H3 H4 H5] Hreg Hina Hcalls Hneutral.
  split; rewrite ?Hreg, ?Hina; try done.
  intros n. rewrite (active_calls n sm sm' evs Hcalls).
  rewrite lifecycle_neutral; [apply H5|].
  intros e He b. by apply Hneutral.
Qed.

Lemma coherent_register (isReady : Readiness) o sm :
  coherent sm ->
  admissible isReady (Register o) sm ->
  coherent (SceneManagerOps.register isReady o sm).
Proof.
  intros [H1 H2 H3 H4 H5] [Hkind Hfresh].
  apply get_None_keys in Hfresh as Hnew.
  assert (Hnotwaiting : name o ∉ JSMap.keys (inactiveObjNameMap sm))
    by (intros Hin; by apply Hnew, H4).
  split; rewrite ?register_sceneObjectMap, ?register_inactive.
  - by apply NoDup_keys_set.
  - destruct (isDrawable o && negb (isReady o)); [by apply NoDup_keys_set | done].
  - intros k o' Hget. destruct (decide (name o = k)) as [<-|Hne].
    + rewrite get_set_eq in Hget. by injection Hget as <-.
    + rewrite get_set_ne in Hget by done. by apply H3.
  - intros n Hn. apply keys_set_elem.
    destruct (isDrawable o && negb (isReady o)).
    + apply keys_set_elem in Hn as [->|Hn]; [by left | right; by apply H4].
    + right. by apply H4.
  - intros n. rewrite active_register, keys_set_elem.
    destruct (decide (name o = n)) as [<-|Hne].
    + rewrite bool_decide_eq_true_2 by done.
      assert (Hinactive : active (name o) sm = false).
      { destruct (active (name o) sm) eqn:Hact; [|done].
        apply H5 in Hact as [Hin _]. done. }
      rewrite Hinactive. destruct (isReady o) eqn:Hr; cbn.
      * rewrite andb_false_r. split; [intros _; split; [by left | done] | done].
      * destruct Hkind as [Hd|Hd]; [|discriminate Hd]. rewrite Hd. cbn.
        split; [done|]. intros [_ Hout]. exfalso. apply Hout.
        apply keys_set_elem. by left.
    + rewrite bool_decide_eq_false_2 by done. rewrite andb_false_r, H5.
      destruct (isDrawable o && negb (isReady o)).
      * rewrite keys_set_elem. split.
        -- intros [Hin Hout]. split; [by right|]. intros [->|Hw]; done.
        -- intros [[->|Hin] Hout]; [done|]. split; [done|]. intros Hw. apply Hout. by right.
      * split.
        -- intros [Hin Hout]. split; [by right | done].
        -- intros [[->|Hin] Hout]; done.
Qed.

Lemma coherent_unregister n0 sm :
  coherent sm ->
  admissible allReady (Unregister n0) sm ->
  coherent (SceneManagerOps.unregister n0 sm).
Proof.
  intros Hco Hadm. cbn in Hadm. apply get_None_keys in Hadm.
  destruct (JSMap.get n0 (sceneObjectMap sm)) as [o|] eqn:Hget;
    [|by rewrite unregister_unknown].
  pose proof Hco as [H1 H2 H3 H4 H5].
  assert (Hname : name o = n0) by (by apply H3).
  assert (Hact : forall n, active n (SceneManagerOps.unregister n0 sm)
                           = if bool_decide (name o = n) then false else active n sm)
    by (intros n; by apply active_unregister).
  rewrite (unregister_known n0 o sm Hget) in *.
  split; cbn [sceneObjectMap inactiveObjNameMap SceneManagerOps.withSceneObjectMap
                SceneManagerOps.withRaycaster emits].
  - by apply NoDup_keys_delete.
  - done.
  - intros k o' Hk. destruct (decide (n0 = k)) as [<-|Hne].
    + by rewrite get_delete_eq in Hk.
    + rewrite get_delete_ne in Hk by done. by apply H3.
  - intros n Hn. apply keys_delete_elem; [done|]. split; [|by apply H4].
    intros ->. done.
  - intros n. rewrite Hact, Hname, keys_delete_elem by done.
    destruct (decide (n0 = n)) as [<-|Hne].
    + rewrite bool_decide_eq_true_2 by done. split; [done | intros [[Hne _] _]; done].
    + rewrite bool_decide_eq_false_2 by done. rewrite H5.
      split; [intros [Hin Hout]; split; [split; [congruence | done] | done]
             | intros [[_ Hin] Hout]; done].
Qed.

Lemma coherent_setActiveCamera n sm sm' :
  coherent sm -> SceneManagerOps.setActiveCamera n sm = Ok sm' -> coherent sm'.
Proof.
  intros Hco. unfold SceneManagerOps.setActiveCamera.
  destruct (JSMap.get n (sceneObjectMap sm)) as [c|]; [|by intros [= <-]].
  destruct (isCameraManager c); [|done]. intros [= <-].
  apply (coherent_neutral sm _ [OnActive c; RendererSetup c] Hco); try done.
  - cbn. by rewrite <- app_assoc.
  - intros e He b n'. apply elem_of_cons in He as [->|He]; [done|].
    apply list_elem_of_singleton in He as ->. done.
Qed.

(** One turn of the loop of [queryReadyObjects] that promotes a
    registered name. *)
Lemma coherent_promoted o n sm :
  coherent sm ->
  JSMap.get n (sceneObjectMap sm) = Some o ->
  coherent (SceneManagerOps.withInactive (JSMap.delete n)
              (SceneManagerOps.emit (OnSceneStart o) (SceneManagerOps.addToScene o sm))).
Proof.
  intros [H1 H2 H3 H4 H5] Hget. rewrite addToScene_eq.
  assert (Hname : name o = n) by (by apply H3).
  assert (Hact : forall n',
             active n' (SceneManagerOps.withInactive (JSMap.delete n)
                          (SceneManagerOps.emit (OnSceneStart o)
                             (SceneManagerOps.withRaycaster (castAdded o)
                                (emits (addCalls o) sm))))
             = if bool_decide (n = n') then true else active n' sm).
  { intros n'. rewrite (active_calls n' sm _ (addCalls o ++ [OnSceneStart o]))
      by (cbn; by rewrite <- app_assoc).
    rewrite foldl_app, lifecycle_addCalls. cbn. rewrite Hname.
    destruct (decide (n = n')); [by rewrite bool_decide_eq_true_2
                                | by rewrite bool_decide_eq_false_2]. }
  split; cbn [sceneObjectMap inactiveObjNameMap SceneManagerOps.withInactive
                SceneManagerOps.emit SceneManagerOps.withRaycaster emits].
  - done.
  - by apply NoDup_keys_delete.
  - done.
  - intros n' Hn'. apply keys_delete_elem in Hn' as [_ Hn']; [|done]. by apply H4.
  - intros n'. rewrite Hact, keys_delete_elem by done.
    destruct (decide (n = n')) as [<-|Hne].
    + rewrite bool_decide_eq_true_2 by done.
      split; [intros _; split; [by eapply get_Some_keys | intros [Hne _]; done] | done].
    + rewrite bool_decide_eq_false_2 by done. rewrite H5.
      split; [intros [Hin Hout]; split; [done | intros [_ Hw]; done]
             | intros [Hin Hout]; split; [done | intros Hw; apply Hout; split; [congruence | done]]].
Qed.

(** The loop of [queryReadyObjects] does not throw when the names it
    visits are registered, and keeps the facts. *)
Lemma coherent_promote (isReady : Readiness) (names : list string) sm :
  coherent sm ->
  (forall n, n ∈ names -> n ∈ JSMap.keys (sceneObjectMap sm)) ->
  exists sm', SceneManagerOps.promote isReady names sm = Ok sm'
              /\ coherent sm'
              /\ sceneObjectMap sm' = sceneObjectMap sm.
Proof.
  revert sm. induction names as [|n names IH]; intros sm Hco Hnames; cbn.
  - by exists sm.
  - destruct (keys_get_Some (sceneObjectMap sm) n) as [o Ho]; [apply Hnames; by left|].
    rewrite Ho.
    assert (Hrest : forall n', n' ∈ names -> n' ∈ JSMap.keys (sceneObjectMap sm))
      by (intros n' Hn'; apply Hnames; by right).
    destruct (isReady o).
    + destruct (IH _ (coherent_promoted o n sm Hco Ho)) as (sm' & Hrun & Hco' & Hreg).
      { rewrite addToScene_eq. exact Hrest. }
      exists sm'. split; [exact Hrun|]. split; [exact Hco'|].
      rewrite Hreg, addToScene_eq. done.
    + by apply IH.
Qed.

Lemma coherent_renderLoop (window : Window) (isReady : Readiness) sm :
  coherent sm ->
  exists sm', SceneManagerOps.renderLoop window isReady sm = Ok sm' /\ coherent sm'.
Proof.
  intros Hco. unfold SceneManagerOps.renderLoop.
  destruct (activeCameraManager sm) as [c|]; [|by exists sm].
  set (sm2 := SceneManagerOps.emit (CameraUpdateMatrices c)
                (SceneManagerOps.emit (CameraSetAspectRatio c _) sm)).
  assert (Hco2 : coherent sm2).
  { apply (coherent_neutral sm sm2 [CameraSetAspectRatio c
               (innerWidth window / innerHeight window)%Q; CameraUpdateMatrices c] Hco);
      try done.
    - cbn. by rewrite <- app_assoc.
    - intros e He b n'. apply elem_of_cons in He as [->|He]; [done|].
      apply list_elem_of_singleton in He as ->. done. }
  assert (Hquery : exists sm3, SceneManagerOps.queryReadyObjects isReady sm2 = Ok sm3
                               /\ coherent sm3).
  { unfold SceneManagerOps.queryReadyObjects. case_bool_decide; [|by exists sm2].
    destruct (coherent_promote isReady (JSMap.keys (inactiveObjNameMap sm2)) sm2 Hco2)
      as (sm3 & Hrun & Hco3 & _); [apply (awaiting_registered sm2 Hco2)|].
    by exists sm3. }
  destruct Hquery as (sm3 & -> & Hco3). cbn.
  eexists. split; [reflexivity|].
  unfold SceneManagerOps.notifyObjects. rewrite foldl_emit.
  apply (coherent_neutral sm3 _
           ([RendererRender] ++ (OnSceneRender <$> JSMap.values (sceneObjectMap sm3))) Hco3);
    try done.
  - cbn. by rewrite <- app_assoc.
  - intros e He b n'. apply elem_of_app in He as [He|He].
    + apply list_elem_of_singleton in He as ->. done.
    + apply list_elem_of_fmap in He as (x & -> & _). done.
Qed.

Lemma coherent_run (ops : list (Readiness * Op)) sm :
  coherent sm ->
  admissibleRun ops sm ->
  exists sm', run ops sm = Ok sm' /\ coherent sm'.
Proof.
  revert sm. induction ops as [|[isReady op] ops IH]; intros sm Hco Hadm.
  - by exists sm.
  - destruct Hadm as [Hop Hrest]. cbn [run].
    assert (Hstep : exists sm1, step isReady op sm = Ok sm1 /\ coherent sm1).
    { destruct op as [o|n|n|window]; cbn [step].
      - eexists. split; [reflexivity | by apply coherent_register].
      - eexists. split; [reflexivity | by apply coherent_unregister].
      - cbn in Hop.
        assert (Hok : exists sm1, SceneManagerOps.setActiveCamera n sm = Ok sm1).
        { unfold SceneManagerOps.setActiveCamera.
          destruct (JSMap.get n (sceneObjectMap sm)) as [c|]; [|by eexists].
          rewrite Hop. by eexists. }
        destruct Hok as (sm1 & Hok). exists sm1.
        split; [exact Hok | by eapply coherent_setActiveCamera].
      - by apply coherent_renderLoop. }
    destruct Hstep as (sm1 & Hstep & Hco1). rewrite Hstep in Hrest |- *.
    by apply IH.
Qed.
End InvariantFacts.

(** C4 (amended).  Take a run of registrations, unregistrations, camera
    activations and frames of the render loop, from the state left by the
    constructor, in which every object registered is drawable or ready and
    goes under a name not then registered, no name is unregistered while
    it awaits readiness, and every object activated as camera is a camera
    manager.  The run does not throw, and after it every registered name
    is either active or awaiting, never both, and every awaiting name is
    registered. *)
Theorem C4_registry_invariant_of_admissible_runs (ops : list (Readiness * Op)) :
  admissibleRun ops SceneManagerOps.initial ->
  exists sm : SceneManager,
    run ops SceneManagerOps.initial = Ok sm /\ registryInvariant sm.
Proof.
  intros Hadm.
  destruct (coherent_run ops SceneManagerOps.initial coherent_initial Hadm)
    as (sm & Hrun & Hco).
  exists sm. split; [exact Hrun | by apply coherent_registryInvariant].
Qed.

Lemma C4_registry_invariant_of_admissible_runs_witness :
  admissibleRun sampleRun SceneManagerOps.initial
  /\ exists sm : SceneManager,
       run sampleRun SceneManagerOps.initial = Ok sm /\ registryInvariant sm.
Proof.
  assert (Hadm : admissibleRun sampleRun SceneManagerOps.initial).
  { vm_compute. repeat split; (by left) || (by right) || done. }
  split; [exact Hadm|].
  exact (C4_registry_invariant_of_admissible_runs sampleRun Hadm).
Defined.

(** *** What the side conditions keep away *)

(** Unregistering a name while it awaits readiness leaves the name in the
    awaiting set; the next frame then looks the name up in the registry,
    finds nothing, and throws. *)
Example unregister_while_awaiting :
  let sm := SceneManagerOps.unregister "Model"
              (SceneManagerOps.register noneReady modelObject sceneWithCamera) in
  registered "Model" sm = false
  /\ awaiting "Model" sm = true
  /\ SceneManagerOps.renderLoop window800 allReady sm = TypeError.
Proof. repeat split; reflexivity. Qed.

(** Registering the object again before that frame hides the throw: the
    name is then both active and awaiting, and the frame adds the object
    to the scene and calls its start hook a second time. *)
Example reregister_after_awaiting :
  let sm0 := SceneManagerOps.unregister "Model"
               (SceneManagerOps.register noneReady modelObject sceneWithCamera) in
  let sm1 := SceneManagerOps.register allReady modelObject sm0 in
  active "Model" sm1 = true
  /\ awaiting "Model" sm1 = true
  /\ exists sm2, SceneManagerOps.renderLoop window800 allReady sm1 = Ok sm2
                 /\ startsOf modelObject (callsSince sm0 sm2) = 2.
Proof. split; [reflexivity|]. split; [reflexivity|]. eexists. split; reflexivity. Qed.

(** Registering a ready object under a name that awaits readiness leaves
    the name both active and awaiting. *)
Example register_over_awaiting :
  let sm := SceneManagerOps.register allReady modelObject
              (SceneManagerOps.register noneReady modelObject sceneWithCamera) in
  active "Model" sm = true /\ awaiting "Model" sm = true.
Proof. split; reflexivity. Qed.

(** Activating a registered object that is not a camera manager throws;
    an unregistered name is ignored. *)
Example activate_non_camera_throws :
  let sm := SceneManagerOps.register allReady inputObject sceneWithCamera in
  SceneManagerOps.setActiveCamera "Input" sm = TypeError
  /\ SceneManagerOps.setActiveCamera "Light" sm = Ok sm.
Proof. split; reflexivity. Qed.

(** * Further properties of the code *)

(** ** RayCast: runs of [add] and [remove] *)

Section RayCastRuns.
Implicit Types (rc : RayCast) (n : string) (o : Object3D).

Lemma add_lookup rc n n' o :
  JSMap.get n' (raycastObjectMap (RayCastOps.add n o rc))
  = if decide (n = n')
    then Some (default [] (JSMap.get n (raycastObjectMap rc)) ++ [o])
    else JSMap.get n' (raycastObjectMap rc).
Proof.
  destruct (decide (n = n')) as [<-|Hne]; [apply add_registers|].
  unfold RayCastOps.add. cbn.
  destruct (JSMap.get n (raycastObjectMap rc)); by rewrite get_set_ne.
Qed.

Lemma addAll_objects (l : list (string * Object3D)) rc :
  raycastObjects (addAll l rc) = raycastObjects rc ++ (Obj <$> l.*2).
Proof.
  unfold addAll. revert rc. induction l as [|[n o] l IH]; intros rc; cbn.
  - by rewrite app_nil_r.
  - rewrite IH. cbn. by rewrite <- app_assoc.
Qed.

Lemma addAll_owner (l : list (string * Object3D)) rc n :
  default [] (JSMap.get n (raycastObjectMap (addAll l rc)))
  = default [] (JSMap.get n (raycastObjectMap rc))
    ++ (filter (fun p => p.1 = n) l).*2.
Proof.
  unfold addAll. revert rc. induction l as [|[k o] l IH]; intros rc.
  - cbn. by rewrite app_nil_r.
  - cbn [foldl]. rewrite IH, add_lookup, filter_cons. cbn [fst snd].
    destruct (decide (k = n)) as [->|Hne]; cbn.
    + by rewrite <- app_assoc.
    + done.
Qed.

Lemma addAll_known (l : list (string * Object3D)) rc n :
  is_Some (JSMap.get n (raycastObjectMap (addAll l rc)))
  <-> is_Some (JSMap.get n (raycastObjectMap rc)) \/ n ∈ l.*1.
Proof.
  unfold addAll. revert rc. induction l as [|[k o] l IH]; intros rc.
  - cbn. split; [by left | intros [H|H]; [done | by apply elem_of_nil in H]].
  - cbn [foldl]. rewrite IH, add_lookup. cbn [fst snd fmap list_fmap].
    rewrite elem_of_cons. destruct (decide (k = n)) as [->|Hne].
    + split; [intros _; right; by left | intros _; left; eauto].
    + split; [intros [H|H]; auto | intros [H|[H|H]]; auto; congruence].
Qed.

Lemma held_flat rc (os : list Object3D) :
  raycastObjects rc = Obj <$> os -> RayCastOps.held rc = os.
Proof.
  intros Hflat. unfold RayCastOps.held, RayCastOps.queried. rewrite Hflat.
  clear Hflat. induction os as [|o os IH]; [done|]. cbn. cbn in IH. by rewrite IH.
Qed.

Lemma isFlat_objects (os : list Object3D) rc :
  raycastObjects rc = Obj <$> os -> RayCastOps.isFlat rc = true.
Proof.
  intros Hflat. unfold RayCastOps.isFlat. rewrite Hflat.
  clear Hflat. induction os as [|o os IH]; [done|]. exact IH.
Qed.

Lemma not_flat_with_array rc (k : string) :
  Arr k ∈ raycastObjects rc -> RayCastOps.isFlat rc = false.
Proof.
  unfold RayCastOps.isFlat. induction (raycastObjects rc) as [|p ps IH]; intros Hin.
  - by apply elem_of_nil in Hin.
  - apply elem_of_cons in Hin as [<-|Hin]; [done|].
    cbn. rewrite IH by done. by destruct p.
Qed.

Lemma set_not_nil {V : Type} (k : string) (v : V) (m : list (string * V)) :
  JSMap.set k v m <> [].
Proof. destruct m as [|[k' v'] r]; cbn; [done|]. by destruct (decide (k' = k)). Qed.

Lemma spoilt_remove_known rc n objects :
  JSMap.get n (raycastObjectMap rc) = Some objects -> spoilt (RayCastOps.remove n rc).
Proof.
  intros Hget. split.
  - exists n. rewrite (remove_known rc n objects Hget).
    apply list_elem_of_fmap. exists n. split; [done | by eapply get_Some_keys].
  - rewrite remove_keeps_map. intros Hnil. by rewrite Hnil in Hget.
Qed.

Lemma spoilt_step rc (op : RayOp) : spoilt rc -> spoilt (rayStep rc op).
Proof.
  intros [[k Hk] Hmap]. destruct op as [n o|n]; cbn.
  - split.
    + exists k. unfold RayCastOps.add. cbn. apply elem_of_app. by left.
    + unfold RayCastOps.add. cbn.
      destruct (JSMap.get n (raycastObjectMap rc)); apply set_not_nil.
  - destruct (JSMap.get n (raycastObjectMap rc)) as [objects|] eqn:Hget.
    + by eapply spoilt_remove_known.
    + rewrite remove_unknown by done. by split; [exists k|].
Qed.

Lemma spoilt_run (ops : list RayOp) rc : spoilt rc -> spoilt (rayRun ops rc).
Proof.
  unfold rayRun. revert rc. induction ops as [|op ops IH]; intros rc Hs; [done|].
  cbn. by apply IH, spoilt_step.
Qed.
End RayCastRuns.

(** X1. After any run of [add] calls on a new ray caster, the array used
    by the intersection queries is flat and holds exactly the objects
    added, in the order of the calls; the map lists under each owner its
    own objects in that order, and knows exactly the owners that added
    something.  An empty run leaves nothing pickable. *)
Theorem X1_adds_keep_list_and_map (l : list (string * Object3D)) :
  let rc := addAll l RayCastOps.empty in
  raycastObjects rc = (Obj <$> l.*2)
  /\ RayCastOps.isFlat rc = true
  /\ RayCastOps.held rc = l.*2
  /\ (forall n, default [] (JSMap.get n (raycastObjectMap rc))
                = (filter (fun p => p.1 = n) l).*2)
  /\ (forall n, is_Some (JSMap.get n (raycastObjectMap rc)) <-> n ∈ l.*1).
Proof.
  intros rc.
  assert (Hflat : raycastObjects rc = (Obj <$> l.*2))
    by (unfold rc; by rewrite addAll_objects).
  split; [exact Hflat|]. split; [by eapply isFlat_objects|].
  split; [by apply held_flat|]. split.
  - intros n. unfold rc. by rewrite addAll_owner.
  - intros n. unfold rc. rewrite addAll_known. cbn.
    split; [intros [[v Hv]|H]; [discriminate Hv | done] | by right].
Qed.

(** X2. Whichever known owner is removed, [remove] gives the same state:
    the map is unchanged, the array has one element per owner of the
    map, and every object recorded under any owner, the removed one
    included, is still held by the array. *)
Theorem X2_remove_is_the_same_for_every_known_owner
    (rc : RayCast) (n n' : string) (objects objects' : list Object3D) :
  JSMap.get n (raycastObjectMap rc) = Some objects ->
  JSMap.get n' (raycastObjectMap rc) = Some objects' ->
  RayCastOps.remove n rc = RayCastOps.remove n' rc
  /\ raycastObjectMap (RayCastOps.remove n rc) = raycastObjectMap rc
  /\ length (raycastObjects (RayCastOps.remove n rc)) = length (raycastObjectMap rc)
  /\ (forall k os o, JSMap.get k (raycastObjectMap rc) = Some os -> o ∈ os ->
        o ∈ RayCastOps.held (RayCastOps.remove n rc)).
Proof.
  intros Hn Hn'.
  assert (Heq : RayCastOps.remove n rc = RayCastOps.remove n' rc)
    by (unfold RayCastOps.remove; by rewrite Hn, Hn').
  split; [exact Heq|]. split; [apply remove_keeps_map|]. split.
  - rewrite (remove_known rc n objects Hn). unfold JSMap.keys.
    by rewrite !length_fmap.
  - intros k os o Hk Ho.
    assert (Hk' : RayCastOps.remove n rc = RayCastOps.remove k rc)
      by (unfold RayCastOps.remove; by rewrite Hn, Hk).
    rewrite Hk'. by eapply remove_known_still_held.
Qed.

Lemma X2_remove_is_the_same_for_every_known_owner_witness :
  let rc := addAll [("a", 1); ("b", 2); ("a", 3)] RayCastOps.empty in
  RayCastOps.remove "a" rc = RayCastOps.remove "b" rc
  /\ 2 ∈ RayCastOps.held (RayCastOps.remove "a" rc)
  /\ 3 ∈ RayCastOps.held (RayCastOps.remove "a" rc).
Proof.
  pose proof (X2_remove_is_the_same_for_every_known_owner
                (addAll [("a", 1); ("b", 2); ("a", 3)] RayCastOps.empty)
                "a" "b" [1; 3] [2] eq_refl eq_refl) as (Heq & _ & _ & Hheld).
  split; [exact Heq|]. split.
  - apply (Hheld "b" [2] 2); [reflexivity | by left].
  - apply (Hheld "a" [1; 3] 3); [reflexivity | right; by left].
Defined.

(** X3. Once a known owner has been removed, the array is never flat
    again: whatever calls of [add] and [remove] follow, it keeps holding
    an owner's array. *)
Theorem X3_array_never_flat_after_remove
    (rc : RayCast) (n : string) (objects : list Object3D) (ops : list RayOp) :
  JSMap.get n (raycastObjectMap rc) = Some objects ->
  RayCastOps.isFlat (rayRun ops (RayCastOps.remove n rc)) = false
  /\ exists k, Arr k ∈ raycastObjects (rayRun ops (RayCastOps.remove n rc)).
Proof.
  intros Hget.
  destruct (spoilt_run ops _ (spoilt_remove_known rc n objects Hget)) as [[k Hk] _].
  split; [by eapply not_flat_with_array | by exists k].
Qed.

Lemma X3_array_never_flat_after_remove_witness :
  RayCastOps.isFlat
    (rayRun [RayAdd "a" 4; RayRemove "c"; RayAdd "b" 5]
       (RayCastOps.remove "a" (addAll [("a", 1); ("b", 2)] RayCastOps.empty)))
  = false.
Proof.
  exact (proj1 (X3_array_never_flat_after_remove
                  (addAll [("a", 1); ("b", 2)] RayCastOps.empty) "a" [1]
                  [RayAdd "a" 4; RayRemove "c"; RayAdd "b" 5] eq_refl)).
Defined.

(** ** Scene manager: [unregister] and the frame *)

Section FrameFacts.
Implicit Types (sm : SceneManager) (o : SceneObject) (n : string).

Lemma delete_absent {V : Type} n (m : list (string * V)) :
  JSMap.get n m = None -> JSMap.delete n m = m.
Proof.
  induction m as [|[k v] r IH]; cbn; [done|].
  destruct (decide (k = n)); [done|]. intros H. by rewrite IH.
Qed.

Lemma get_delete_None {V : Type} n k (m : list (string * V)) :
  JSMap.get n m = None -> JSMap.get n (JSMap.delete k m) = None.
Proof.
  induction m as [|[k0 v] r IH]; cbn; [done|].
  destruct (decide (k0 = n)) as [->|Hne]; [done|]. intros Hget.
  destruct (decide (k0 = k)); [done|]. cbn. rewrite decide_False by done. auto.
Qed.


Lemma callsSince_same sm : callsSince sm sm = [].
Proof. unfold callsSince. apply drop_all. Qed.

(** A name of the awaiting set without a registered object makes the
    loop of [queryReadyObjects] throw. *)
Lemma promote_throws (isReady : Readiness) (names : list string) sm n :
  n ∈ names ->
  JSMap.get n (sceneObjectMap sm) = None ->
  SceneManagerOps.promote isReady names sm = TypeError.
Proof.
  revert sm. induction names as [|k names IH]; intros sm Hin Hget.
  - by apply elem_of_nil in Hin.
  - cbn. destruct (JSMap.get k (sceneObjectMap sm)) as [o|] eqn:Hk; [|done].
    apply elem_of_cons in Hin as [->|Hin]; [congruence|].
    destruct (isReady o); [|by apply IH].
    apply IH; [done|]. by rewrite addToScene_eq.
Qed.




(** A frame keeps the registry and the mailbox. *)
Lemma promote_frame (isReady : Readiness) (names : list string) sm sm' :
  SceneManagerOps.promote isReady names sm = Ok sm' ->
  sceneObjectMap sm' = sceneObjectMap sm
  /\ messageMap sm' = messageMap sm
  /\ activeCameraManager sm' = activeCameraManager sm
  /\ (NoDup (JSMap.keys (inactiveObjNameMap sm)) ->
      NoDup (JSMap.keys (inactiveObjNameMap sm'))).
Proof.
  revert sm. induction names as [|k names IH]; intros sm Hrun; cbn in Hrun.
  - by injection Hrun as <-.
  - destruct (JSMap.get k (sceneObjectMap sm)) as [o|]; [|done].
    destruct (isReady o); [|by apply IH].
    apply IH in Hrun as (Hreg & Hmm & Hcam & Hnd).
    rewrite addToScene_eq in *. cbn in *.
    split; [done|]. split; [done|]. split; [done|].
    intros H. by apply Hnd, NoDup_keys_delete.
Qed.

Lemma renderLoop_frame (window : Window) (isReady : Readiness) sm sm' :
  SceneManagerOps.renderLoop window isReady sm = Ok sm' ->
  sceneObjectMap sm' = sceneObjectMap sm
  /\ messageMap sm' = messageMap sm
  /\ activeCameraManager sm' = activeCameraManager sm
  /\ (NoDup (JSMap.keys (inactiveObjNameMap sm)) ->
      NoDup (JSMap.keys (inactiveObjNameMap sm'))).
Proof.
  unfold SceneManagerOps.renderLoop.
  destruct (activeCameraManager sm) as [c|] eqn:Hc; [|intros [= <-]; by rewrite Hc].
  unfold SceneManagerOps.queryReadyObjects. cbn [inactiveObjNameMap SceneManagerOps.emit].
  case_bool_decide.
  - destruct (SceneManagerOps.promote _ _ _) as [sm3|] eqn:Hrun; [|done].
    cbn. intros [= <-]. apply promote_frame in Hrun as (Hreg & Hmm & Hcam & Hnd).
    unfold SceneManagerOps.notifyObjects. rewrite foldl_emit. cbn in *.
    rewrite Hreg, Hmm, Hcam. done.
  - cbn. intros [= <-]. unfold SceneManagerOps.notifyObjects. rewrite foldl_emit. done.
Qed.
End FrameFacts.

(** X4. [unregister(name)] changes the registry, the scene and the ray
    caster only: the awaiting set, the mailbox and the active camera are
    left as they were, even when the name is awaiting or is the active
    camera's.  For a registered name the calls are the renderer removals
    of its object followed by its end hook; for an unknown name there is
    no call and no change at all. *)
Theorem X4_unregister_leaves_awaiting_mailbox_camera (n : string) (sm : SceneManager) :
  let sm' := SceneManagerOps.unregister n sm in
  inactiveObjNameMap sm' = inactiveObjNameMap sm
  /\ messageMap sm' = messageMap sm
  /\ activeCameraManager sm' = activeCameraManager sm
  /\ sceneObjectMap sm' = JSMap.delete n (sceneObjectMap sm)
  /\ match JSMap.get n (sceneObjectMap sm) with
     | Some o => callsSince sm sm' = removeCalls o ++ [OnSceneEnd o]
     | None => sm' = sm
     end.
Proof.
  intros sm'. unfold sm'.
  destruct (JSMap.get n (sceneObjectMap sm)) as [o|] eqn:Hget.
  - rewrite (unregister_known n o sm Hget). repeat split.
    by apply callsSince_app.
  - rewrite (unregister_unknown n sm Hget). repeat split.
    by rewrite delete_absent.
Qed.

(** X5. When the keys of the registry are distinct, [unregister] of the
    same name a second time changes nothing and calls nothing: the end
    hook of an object is called once. *)
Theorem X5_unregister_twice_is_once (n : string) (sm : SceneManager) :
  NoDup (JSMap.keys (sceneObjectMap sm)) ->
  SceneManagerOps.unregister n (SceneManagerOps.unregister n sm)
  = SceneManagerOps.unregister n sm
  /\ JSMap.get n (sceneObjectMap (SceneManagerOps.unregister n sm)) = None.
Proof.
  intros Hnd.
  assert (Hgone : JSMap.get n (sceneObjectMap (SceneManagerOps.unregister n sm)) = None).
  { destruct (JSMap.get n (sceneObjectMap sm)) as [o|] eqn:Hget.
    - rewrite (unregister_known n o sm Hget). cbn. by apply get_delete_eq.
    - by rewrite (unregister_unknown n sm Hget). }
  split; [by apply unregister_unknown | exact Hgone].
Qed.

Lemma X5_unregister_twice_is_once_witness :
  let sm := SceneManagerOps.register allReady modelObject sceneWithCamera in
  SceneManagerOps.unregister "Model" (SceneManagerOps.unregister "Model" sm)
  = SceneManagerOps.unregister "Model" sm.
Proof.
  refine (proj1 (X5_unregister_twice_is_once "Model"
                   (SceneManagerOps.register allReady modelObject sceneWithCamera) _)).
  apply (bool_decide_unpack _). vm_compute. exact I.
Defined.


(** X7. With an active camera and distinct registry keys, unregistering
    a name while it awaits readiness makes the next frame throw: the name
    stays in the awaiting set and the frame calls [isReady()] on nothing. *)
Theorem X7_frame_throws_after_unregister_while_awaiting
    (window : Window) (isReady : Readiness) (n : string) (sm : SceneManager) :
  is_Some (activeCameraManager sm) ->
  NoDup (JSMap.keys (sceneObjectMap sm)) ->
  n ∈ JSMap.keys (inactiveObjNameMap sm) ->
  SceneManagerOps.renderLoop window isReady (SceneManagerOps.unregister n sm) = TypeError.
Proof.
  intros [c Hc] Hnd Hin.
  assert (Hcam : activeCameraManager (SceneManagerOps.unregister n sm) = Some c).
  { destruct (JSMap.get n (sceneObjectMap sm)) as [o|] eqn:Hget.
    - by rewrite (unregister_known n o sm Hget).
    - by rewrite (unregister_unknown n sm Hget). }
  assert (Hina : inactiveObjNameMap (SceneManagerOps.unregister n sm) = inactiveObjNameMap sm).
  { destruct (JSMap.get n (sceneObjectMap sm)) as [o|] eqn:Hget.
    - by rewrite (unregister_known n o sm Hget).
    - by rewrite (unregister_unknown n sm Hget). }
  assert (Hgone : JSMap.get n (sceneObjectMap (SceneManagerOps.unregister n sm)) = None).
  { destruct (JSMap.get n (sceneObjectMap sm)) as [o|] eqn:Hget.
    - rewrite (unregister_known n o sm Hget). cbn. by apply get_delete_eq.
    - by rewrite (unregister_unknown n sm Hget). }
  unfold SceneManagerOps.renderLoop. rewrite Hcam.
  unfold SceneManagerOps.queryReadyObjects.
  cbn [inactiveObjNameMap sceneObjectMap SceneManagerOps.emit]. rewrite Hina.
  rewrite bool_decide_eq_true_2.
  - by rewrite (promote_throws isReady _ _ n).
  - unfold JSMap.size, JSMap.keys in *.
    destruct (inactiveObjNameMap sm); [by apply elem_of_nil in Hin | cbn; lia].
Qed.

Lemma X7_frame_throws_after_unregister_while_awaiting_witness :
  SceneManagerOps.renderLoop window800 allReady
    (SceneManagerOps.unregister "Model"
       (SceneManagerOps.register noneReady modelObject sceneWithCamera))
  = TypeError.
Proof.
  apply X7_frame_throws_after_unregister_while_awaiting.
  - by exists cameraObject.
  - apply (bool_decide_unpack _). vm_compute. exact I.
  - apply (bool_decide_unpack _). vm_compute. exact I.
Defined.



(** ** Scene manager: overwriting registrations and interleaved messages *)

(** X9. Registering an object under a name already in the registry
    overwrites the entry in place: the order of the keys is unchanged and
    the other entries are untouched.  The object registered before is not
    ended and nothing of it is removed: the registration makes no call of
    an end hook or of the renderer's remove, and the array of the ray
    caster only grows. *)
Theorem X9_register_overwrites_in_place
    (isReady : Readiness) (o1 o2 : SceneObject) (sm : SceneManager) :
  JSMap.get (name o2) (sceneObjectMap sm) = Some o1 ->
  let sm' := SceneManagerOps.register isReady o2 sm in
  JSMap.keys (sceneObjectMap sm') = JSMap.keys (sceneObjectMap sm)
  /\ JSMap.get (name o2) (sceneObjectMap sm') = Some o2
  /\ (forall k, k ≠ name o2 ->
        JSMap.get k (sceneObjectMap sm') = JSMap.get k (sceneObjectMap sm))
  /\ (forall e, e ∈ callsSince sm sm' ->
        match e with
        | OnSceneEnd _ | RendererRemove _ => False
        | _ => True
        end)
  /\ raycastObjects (raycaster sm) `prefix_of` raycastObjects (raycaster sm').
Proof.
  intros Hget sm'. unfold sm'. rewrite register_sceneObjectMap.
  split; [apply keys_set_old; by eapply get_Some_keys|].
  split; [apply get_set_eq|].
  split; [intros k Hk; by apply get_set_ne|].
  split.
  - intros e He.
    rewrite (callsSince_app sm _ _ (register_calls isReady o2 sm)) in He.
    apply elem_of_app in He as [He|He].
    + destruct (isReady o2); [|by apply elem_of_nil in He].
      apply elem_of_app in He as [He|He].
      * unfold addCalls in He. apply elem_of_app in He as [He|He];
          apply list_elem_of_fmap in He as (x & -> & _); done.
      * apply list_elem_of_singleton in He as ->. done.
    + apply list_elem_of_fmap in He as (x & -> & _). done.
  - rewrite register_raycaster. destruct (isReady o2); [|done].
    rewrite castAdded_objects. by apply prefix_app_r.
Qed.

Lemma X9_register_overwrites_in_place_witness :
  let sm := SceneManagerOps.register allReady inputObject
              (SceneManagerOps.register noneReady modelObject sceneWithCamera) in
  JSMap.keys (sceneObjectMap (SceneManagerOps.register allReady modelObject sm))
  = ["Camera"; "Model"; "Input"].
Proof.
  exact (proj1 (X9_register_overwrites_in_place allReady modelObject modelObject
                  (SceneManagerOps.register allReady inputObject
                     (SceneManagerOps.register noneReady modelObject sceneWithCamera))
                  eq_refl)).
Defined.

Section BroadcastRuns.
Implicit Types (sm : SceneManager).

Lemma broadcastTo_spec (from to : string) (data : Data) sm :
  let sm' := SceneManagerOps.broadcastTo from to data sm in
  sceneObjectMap sm' = sceneObjectMap sm
  /\ inactiveObjNameMap sm' = inactiveObjNameMap sm
  /\ activeCameraManager sm' = activeCameraManager sm
  /\ raycaster sm' = raycaster sm
  /\ calls sm' = calls sm ++ directDeliveries (sceneObjectMap sm) [(from, to, data)]
  /\ messageMap sm'
     = match JSMap.get to (sceneObjectMap sm) with
       | Some _ => messageMap sm
       | None => <[to := default [] (messageMap sm !! to)
                          ++ [messageOf (from, to, data)]]> (messageMap sm)
       end.
Proof.
  unfold SceneManagerOps.broadcastTo, directDeliveries. cbn.
  destruct (JSMap.get to (sceneObjectMap sm)) as [o|]; cbn.
  - done.
  - rewrite app_nil_r. by destruct (messageMap sm !! to).
Qed.

Lemma broadcastAll_spec (sends : list (string * string * Data)) sm :
  let sm' := broadcastAll sends sm in
  sceneObjectMap sm' = sceneObjectMap sm
  /\ inactiveObjNameMap sm' = inactiveObjNameMap sm
  /\ calls sm' = calls sm ++ directDeliveries (sceneObjectMap sm) sends
  /\ (forall k o, JSMap.get k (sceneObjectMap sm) = Some o ->
        messageMap sm' !! k = messageMap sm !! k)
  /\ (forall k, JSMap.get k (sceneObjectMap sm) = None ->
        default [] (messageMap sm' !! k)
        = default [] (messageMap sm !! k)
          ++ filter (fun m => msg_to m = k) (messageOf <$> sends)).
Proof.
  unfold broadcastAll. revert sm. induction sends as [|[[from to] data] sends IH]; intros sm.
  - cbn. rewrite app_nil_r. repeat split. intros k _. by rewrite app_nil_r.
  - cbn [foldl fst snd].
    destruct (broadcastTo_spec from to data sm) as (Hreg & Hina & _ & _ & Hcalls & Hmm).
    destruct (IH (SceneManagerOps.broadcastTo from to data sm))
      as (Hreg' & Hina' & Hcalls' & Hkeep & Hq).
    cbn zeta in *. rewrite Hreg', Hreg, Hina', Hina, Hcalls', Hcalls, Hreg.
    split; [done|]. split; [done|]. split.
    { rewrite <- app_assoc. f_equal. unfold directDeliveries. cbn.
      by rewrite app_nil_r. }
    split.
    + intros k o Hk. rewrite (Hkeep k o) by (by rewrite Hreg). rewrite Hmm.
      destruct (JSMap.get to (sceneObjectMap sm)) eqn:Hto; [done|].
      rewrite lookup_insert_ne; [done|]. intros ->. congruence.
    + intros k Hk. rewrite Hq by (by rewrite Hreg). rewrite Hmm.
      rewrite fmap_cons, filter_cons. cbn [msg_to messageOf fst snd].
      destruct (decide (to = k)) as [->|Hne].
      * rewrite Hk, lookup_insert_eq. cbn. by rewrite <- app_assoc.
      * destruct (JSMap.get to (sceneObjectMap sm)); [done|].
        by rewrite lookup_insert_ne.
Qed.
End BroadcastRuns.

(** X10. In any run of [broadcastTo] calls, to whatever recipients and in
    whatever interleaving: a message to a registered name is delivered at
    once, in the order of the calls, and is not queued; the queue of an
    unregistered name grows by exactly the messages sent to that name, in
    the order they were sent.  The registry and the awaiting set are
    untouched. *)
Theorem X10_interleaved_broadcasts_keep_order_per_recipient
    (sends : list (string * string * Data)) (sm : SceneManager) :
  let sm' := broadcastAll sends sm in
  sceneObjectMap sm' = sceneObjectMap sm
  /\ inactiveObjNameMap sm' = inactiveObjNameMap sm
  /\ callsSince sm sm' = directDeliveries (sceneObjectMap sm) sends
  /\ (forall k o, JSMap.get k (sceneObjectMap sm) = Some o ->
        messageMap sm' !! k = messageMap sm !! k)
  /\ (forall k, JSMap.get k (sceneObjectMap sm) = None ->
        default [] (messageMap sm' !! k)
        = default [] (messageMap sm !! k)
          ++ filter (fun m => msg_to m = k) (messageOf <$> sends)).
Proof.
  intros sm'. destruct (broadcastAll_spec sends sm) as (Hreg & Hina & Hcalls & Hkeep & Hq).
  fold sm' in Hreg, Hina, Hcalls, Hkeep, Hq.
  split; [done|]. split; [done|]. split; [by apply callsSince_app|]. by split.
Qed.

Example interleaved_broadcasts :
  let sm := broadcastAll [("Camera", "Input", Null); ("Model", "Camera", Num 1);
                          ("Model", "Input", Num 2); ("Camera", "Light", Str "on")]
              sceneWithCamera in
  callsSince sceneWithCamera sm = [OnMessage cameraObject "Model" (Num 1)]
  /\ messageMap sm !! "Input"
     = Some [ {| msg_from := "Camera"; msg_to := "Input"; msg_data := Null |};
              {| msg_from := "Model"; msg_to := "Input"; msg_data := Num 2 |} ]
  /\ messageMap sm !! "Camera" = None.
Proof. repeat split; reflexivity. Qed.

(** ** Scene manager: what every run of calls keeps *)

Section RunFacts.
Implicit Types (sm : SceneManager) (o : SceneObject) (n : string).

Lemma broadcastToAll_eq (from : string) (data : Data) sm :
  SceneManagerOps.broadcastToAll from data sm
  = Ok (emits (recipients from data (sceneObjectMap sm) (JSMap.keys (sceneObjectMap sm))) sm).
Proof.
  unfold SceneManagerOps.broadcastToAll. apply broadcastKeys_eq.
  intros k Hk. by apply keys_get_Some.
Qed.

Lemma perform_wellKeyed (isReady : Readiness) (c : Call) sm sm' :
  wellKeyed sm -> perform isReady c sm = Ok sm' -> wellKeyed sm'.
Proof.
  intros (Hreg & Hina & Hnames) Hrun.
  destruct c as [o|n|n|window|from to data|from data]; cbn in Hrun.
  - injection Hrun as <-. unfold wellKeyed.
    rewrite register_sceneObjectMap, register_inactive.
    split; [by apply NoDup_keys_set|]. split.
    + destruct (isDrawable o && negb (isReady o)); [by apply NoDup_keys_set | done].
    + intros k o' Hget. destruct (decide (name o = k)) as [<-|Hne].
      * rewrite get_set_eq in Hget. by injection Hget as <-.
      * rewrite get_set_ne in Hget by done. by apply Hnames.
  - injection Hrun as <-.
    destruct (JSMap.get n (sceneObjectMap sm)) as [o|] eqn:Hget;
      [|by rewrite unregister_unknown].
    rewrite (unregister_known n o sm Hget). unfold wellKeyed. cbn.
    split; [by apply NoDup_keys_delete|]. split; [done|].
    intros k o' Hk. destruct (decide (n = k)) as [<-|Hne].
    + by rewrite get_delete_eq in Hk.
    + rewrite get_delete_ne in Hk by done. by apply Hnames.
  - unfold SceneManagerOps.setActiveCamera in Hrun.
    destruct (JSMap.get n (sceneObjectMap sm)) as [c|]; [|by injection Hrun as <-].
    destruct (isCameraManager c); [|done]. by injection Hrun as <-.
  - apply renderLoop_frame in Hrun as (Hreg' & _ & _ & Hina').
    unfold wellKeyed. rewrite Hreg'. auto.
  - injection Hrun as <-.
    destruct (broadcastTo_spec from to data sm) as (Hreg' & Hina' & _).
    unfold wellKeyed. cbn zeta in *. by rewrite Hreg', Hina'.
  - rewrite broadcastToAll_eq in Hrun. by injection Hrun as <-.
Qed.

Lemma perform_mailbox (isReady : Readiness) (c : Call) sm sm' :
  mailboxForAbsent sm -> perform isReady c sm = Ok sm' -> mailboxForAbsent sm'.
Proof.
  intros Hmail Hrun.
  destruct c as [o|n|n|window|from to data|from data]; cbn in Hrun.
  - injection Hrun as <-. intros k queue.
    rewrite register_messageMap, register_sceneObjectMap.
    destruct (decide (name o = k)) as [<-|Hne].
    + by rewrite lookup_delete_eq.
    + rewrite lookup_delete_ne, get_set_ne by done. apply Hmail.
  - injection Hrun as <-.
    destruct (JSMap.get n (sceneObjectMap sm)) as [o|] eqn:Hget;
      [|by rewrite unregister_unknown].
    rewrite (unregister_known n o sm Hget). intros k queue. cbn. intros Hq.
    destruct (Hmail k queue Hq) as [Habsent Hne]. split; [|done].
    by apply get_delete_None.
  - unfold SceneManagerOps.setActiveCamera in Hrun.
    destruct (JSMap.get n (sceneObjectMap sm)) as [c|]; [|by injection Hrun as <-].
    destruct (isCameraManager c); [|done]. by injection Hrun as <-.
  - apply renderLoop_frame in Hrun as (Hreg' & Hmm' & _).
    intros k queue. rewrite Hreg', Hmm'. apply Hmail.
  - injection Hrun as <-.
    destruct (broadcastTo_spec from to data sm) as (Hreg' & _ & _ & _ & _ & Hmm').
    cbn zeta in *. intros k queue. rewrite Hreg', Hmm'.
    destruct (JSMap.get to (sceneObjectMap sm)) eqn:Hto; [apply Hmail|].
    destruct (decide (to = k)) as [<-|Hne].
    + rewrite lookup_insert_eq. intros [= <-]. split; [done|].
      intros Hnil. by apply app_eq_nil in Hnil as [_ ?].
    + rewrite lookup_insert_ne by done. apply Hmail.
  - rewrite broadcastToAll_eq in Hrun. injection Hrun as <-. exact Hmail.
Qed.

(** A call other than [setActiveCamera] leaves the active camera as it
    is. *)
Lemma perform_camera (isReady : Readiness) (c : Call) sm sm' :
  isActivation c = false -> perform isReady c sm = Ok sm' ->
  activeCameraManager sm' = activeCameraManager sm.
Proof.
  intros Hc Hrun.
  destruct c as [o|n|n|window|from to data|from data]; cbn in Hrun; [| |done| | |].
  - injection Hrun as <-. by rewrite register_camera.
  - injection Hrun as <-.
    destruct (JSMap.get n (sceneObjectMap sm)) as [o|] eqn:Hget;
      [by rewrite (unregister_known n o sm Hget) | by rewrite unregister_unknown].
  - by apply renderLoop_frame in Hrun as (_ & _ & Hcam & _).
  - injection Hrun as <-.
    by destruct (broadcastTo_spec from to data sm) as (_ & _ & Hcam & _).
  - rewrite broadcastToAll_eq in Hrun. by injection Hrun as <-.
Qed.

Lemma performAll_keeps (P : SceneManager -> Prop) (cs : list (Readiness * Call)) sm sm' :
  (forall isReady c s s', P s -> perform isReady c s = Ok s' -> P s') ->
  P sm -> performAll cs sm = Ok sm' -> P sm'.
Proof.
  intros Hstep. revert sm. induction cs as [|[isReady c] cs IH]; intros sm HP Hrun.
  - cbn in Hrun. by injection Hrun as <-.
  - cbn in Hrun. destruct (perform isReady c sm) as [s1|] eqn:Hs; [|done].
    cbn in Hrun. eapply IH; [|exact Hrun]. by eapply Hstep.
Qed.
End RunFacts.

(** X11. After any run of calls (register, unregister, setActiveCamera,
    frames, broadcastTo, broadcastToAll) that does not throw, from the
    state left by the constructor: the keys of the registry are distinct,
    the names of the awaiting set are distinct, and every registry key is
    the name of the object stored under it. *)
Theorem X11_keys_are_names_and_distinct
    (cs : list (Readiness * Call)) (sm : SceneManager) :
  performAll cs SceneManagerOps.initial = Ok sm -> wellKeyed sm.
Proof.
  apply (performAll_keeps wellKeyed); [apply perform_wellKeyed|].
  split; [apply NoDup_nil_2|]. split; [apply NoDup_nil_2|].
  intros k o Hget. discriminate Hget.
Qed.

Lemma X11_keys_are_names_and_distinct_witness :
  match performAll sampleCalls SceneManagerOps.initial with
  | Ok sm => wellKeyed sm
  | TypeError => False
  end.
Proof.
  destruct (performAll sampleCalls SceneManagerOps.initial) as [sm|] eqn:Hrun.
  - exact (X11_keys_are_names_and_distinct sampleCalls sm Hrun).
  - vm_compute in Hrun. discriminate Hrun.
Defined.

(** X12. After any such run that does not throw, the mailbox holds queues
    for unregistered names only, and no queue is empty: a registered
    name never has a pending message. *)
Theorem X12_mailbox_only_for_unregistered_names
    (cs : list (Readiness * Call)) (sm : SceneManager) :
  performAll cs SceneManagerOps.initial = Ok sm -> mailboxForAbsent sm.
Proof.
  apply (performAll_keeps mailboxForAbsent); [apply perform_mailbox|].
  intros n queue Hq. cbn in Hq. by rewrite lookup_empty in Hq.
Qed.

Lemma X12_mailbox_only_for_unregistered_names_witness :
  match performAll sampleCalls SceneManagerOps.initial with
  | Ok sm => mailboxForAbsent sm
  | TypeError => False
  end.
Proof.
  destruct (performAll sampleCalls SceneManagerOps.initial) as [sm|] eqn:Hrun.
  - exact (X12_mailbox_only_for_unregistered_names sampleCalls sm Hrun).
  - vm_compute in Hrun. discriminate Hrun.
Defined.

(** X13. No call other than [setActiveCamera] changes the active camera:
    after any run of register, unregister, frames, broadcastTo and
    broadcastToAll that does not throw, the active camera is the object
    it was, also when its name has been unregistered in between. *)
Theorem X13_only_setActiveCamera_changes_the_camera
    (cs : list (Readiness * Call)) (sm sm' : SceneManager) :
  forallb (fun rc => negb (isActivation rc.2)) cs = true ->
  performAll cs sm = Ok sm' ->
  activeCameraManager sm' = activeCameraManager sm.
Proof.
  revert sm. induction cs as [|[isReady c] cs IH]; intros sm Hcs Hrun.
  - cbn in Hrun. by injection Hrun as <-.
  - cbn in Hcs. apply andb_true_iff in Hcs as [Hc Hcs].
    apply negb_true_iff in Hc.
    cbn in Hrun. destruct (perform isReady c sm) as [s1|] eqn:Hs; [|done].
    cbn in Hrun. rewrite (IH s1 Hcs Hrun). by eapply perform_camera.
Qed.

Lemma X13_only_setActiveCamera_changes_the_camera_witness :
  match performAll [ (allReady, CallUnregister "Camera");
                     (allReady, CallRegister modelObject);
                     (allReady, CallRenderLoop window800) ] sceneWithCamera with
  | Ok sm' => activeCameraManager sm' = Some cameraObject
  | TypeError => False
  end.
Proof.
  destruct (performAll _ sceneWithCamera) as [sm'|] eqn:Hrun.
  - exact (X13_only_setActiveCamera_changes_the_camera
             [ (allReady, CallUnregister "Camera");
               (allReady, CallRegister modelObject);
               (allReady, CallRenderLoop window800) ]
             sceneWithCamera sm' eq_refl Hrun).
  - vm_compute in Hrun. discriminate Hrun.
Defined.

(** ** Messaging around registration *)

(** X14. A message sent to an object right after its registration is
    delivered at once, by one call of its message hook, and leaves no
    queue behind. *)
Theorem X14_message_after_register_is_delivered_at_once
    (isReady : Readiness) (o : SceneObject) (from : string) (data : Data)
    (sm : SceneManager) :
  let sm1 := SceneManagerOps.register isReady o sm in
  let sm2 := SceneManagerOps.broadcastTo from (name o) data sm1 in
  callsSince sm1 sm2 = [OnMessage o from data]
  /\ messageMap sm2 = messageMap sm1
  /\ messageMap sm2 !! name o = None.
Proof.
  intros sm1 sm2.
  destruct (broadcastTo_spec from (name o) data sm1) as (_ & _ & _ & _ & Hcalls & Hmm).
  fold sm2 in Hcalls, Hmm.
  assert (Hget : JSMap.get (name o) (sceneObjectMap sm1) = Some o)
    by (unfold sm1; rewrite register_sceneObjectMap; apply get_set_eq).
  rewrite Hget in Hmm. unfold directDeliveries in Hcalls. cbn in Hcalls.
  rewrite Hget in Hcalls. cbn in Hcalls.
  split; [by apply callsSince_app|]. split; [exact Hmm|].
  rewrite Hmm. unfold sm1. rewrite register_messageMap. apply lookup_delete_eq.
Qed.

(** X15. With distinct registry keys: a message sent to a name between
    its [unregister] and the next [register] under that name is not
    delivered when sent; it is queued, and delivered by the registration,
    after which no queue is left. *)
Theorem X15_message_between_unregister_and_register
    (isReady : Readiness) (o : SceneObject) (from : string) (data : Data)
    (sm : SceneManager) :
  NoDup (JSMap.keys (sceneObjectMap sm)) ->
  messageMap sm !! name o = None ->
  let sm1 := SceneManagerOps.unregister (name o) sm in
  let sm2 := SceneManagerOps.broadcastTo from (name o) data sm1 in
  let sm3 := SceneManagerOps.register isReady o sm2 in
  callsSince sm1 sm2 = []
  /\ messageMap sm2 !! name o
     = Some [ {| msg_from := from; msg_to := name o; msg_data := data |} ]
  /\ messagesIn (callsSince sm2 sm3) = [OnMessage o from data]
  /\ messageMap sm3 !! name o = None.
Proof.
  intros Hnd Hempty sm1 sm2 sm3.
  assert (Hgone : JSMap.get (name o) (sceneObjectMap sm1) = None).
  { unfold sm1. destruct (JSMap.get (name o) (sceneObjectMap sm)) as [o'|] eqn:Hget.
    - rewrite (unregister_known _ o' sm Hget). cbn. by apply get_delete_eq.
    - by rewrite (unregister_unknown _ sm Hget). }
  assert (Hmm1 : messageMap sm1 = messageMap sm).
  { unfold sm1. destruct (JSMap.get (name o) (sceneObjectMap sm)) as [o'|] eqn:Hget.
    - by rewrite (unregister_known _ o' sm Hget).
    - by rewrite (unregister_unknown _ sm Hget). }
  destruct (broadcastTo_spec from (name o) data sm1) as (_ & _ & _ & _ & Hcalls & Hmm).
  fold sm2 in Hcalls, Hmm.
  rewrite Hgone, Hmm1, Hempty in Hmm. cbn in Hmm.
  unfold directDeliveries in Hcalls. cbn in Hcalls. rewrite Hgone in Hcalls.
  cbn in Hcalls. rewrite app_nil_r in Hcalls.
  assert (Hq : messageMap sm2 !! name o
               = Some [ {| msg_from := from; msg_to := name o; msg_data := data |} ])
    by (rewrite Hmm; apply lookup_insert_eq).
  split; [apply callsSince_app; by rewrite app_nil_r|]. split; [exact Hq|]. split.
  - rewrite (callsSince_app sm2 sm3 _ (register_calls isReady o sm2)), Hq.
    rewrite messagesIn_app. cbn [default fmap list_fmap].
    destruct (isReady o); cbn; [|done].
    rewrite messagesIn_app, messagesIn_addCalls. done.
  - unfold sm3. rewrite register_messageMap. apply lookup_delete_eq.
Qed.

Lemma X15_message_between_unregister_and_register_witness :
  let sm := SceneManagerOps.register allReady inputObject sceneWithCamera in
  let sm2 := SceneManagerOps.broadcastTo "Camera" "Input" Null
               (SceneManagerOps.unregister "Input" sm) in
  messagesIn (callsSince sm2 (SceneManagerOps.register allReady inputObject sm2))
  = [OnMessage inputObject "Camera" Null].
Proof.
  refine (proj1 (proj2 (proj2
            (X15_message_between_unregister_and_register allReady inputObject "Camera" Null
               (SceneManagerOps.register allReady inputObject sceneWithCamera) _ _)))).
  - apply (bool_decide_unpack _). vm_compute. exact I.
  - reflexivity.
Defined.

(** X16. Activating a registered first-person camera manager makes it the
    active camera and sends its request to the name "Input" between its
    activation hook and the set-up of the renderer: when an object is
    registered under "Input" the request is delivered to it at once;
    otherwise it is queued, last, and an object that later registers
    under "Input" receives the queue, the request included. *)
Theorem X16_first_person_activation_requests_input
    (n : string) (camera : SceneObject) (sm : SceneManager) :
  JSMap.get n (sceneObjectMap sm) = Some camera ->
  let sm' := FirstPersonManager.setActiveCamera n sm in
  activeCameraManager sm' = Some camera
  /\ sceneObjectMap sm' = sceneObjectMap sm
  /\ match JSMap.get "Input" (sceneObjectMap sm) with
     | Some input =>
         callsSince sm sm'
         = [OnActive camera; OnMessage input (name camera) Null; RendererSetup camera]
         /\ messageMap sm' = messageMap sm
     | None =>
         callsSince sm sm' = [OnActive camera; RendererSetup camera]
         /\ messageMap sm' !! "Input"
            = Some (default [] (messageMap sm !! "Input") ++ [inputRequest (name camera)])
         /\ forall (isReady : Readiness) (input : SceneObject),
              name input = "Input" ->
              messagesIn (callsSince sm' (SceneManagerOps.register isReady input sm'))
              = (SceneManagerOps.deliver input
                   <$> default [] (messageMap sm !! "Input") ++ [inputRequest (name camera)])
     end.
Proof.
  intros Hget sm'. unfold sm', FirstPersonManager.setActiveCamera. rewrite Hget.
  unfold FirstPersonManager.onActive.
  set (sm0 := SceneManagerOps.emit (OnActive camera)
                (SceneManagerOps.withActiveCamera (Some camera) sm)).
  destruct (broadcastTo_spec (name camera) "Input" Null sm0)
    as (Hreg & _ & Hcam & _ & Hcalls & Hmm).
  cbn zeta in *. unfold directDeliveries in Hcalls. cbn in Hcalls, Hmm.
  split; [cbn; by rewrite Hcam|]. split; [cbn; by rewrite Hreg|].
  destruct (JSMap.get "Input" (sceneObjectMap sm)) as [input|] eqn:Hin.
  - split; [|cbn; by rewrite Hmm].
    apply (callsSince_app sm). cbn. rewrite Hcalls. cbn. by rewrite <- !app_assoc.
  - assert (Hq : messageMap
                   (SceneManagerOps.emit (RendererSetup camera)
                      (SceneManagerOps.broadcastTo (name camera) "Input" Null sm0))
                 !! "Input"
                 = Some (default [] (messageMap sm !! "Input")
                         ++ [inputRequest (name camera)])).
    { cbn. rewrite Hmm. apply lookup_insert_eq. }
    split; [apply (callsSince_app sm); cbn; rewrite Hcalls; cbn;
            by rewrite <- !app_assoc|].
    split; [exact Hq|].
    intros isReady input Hname.
    rewrite (callsSince_app _ _ _ (register_calls isReady input _)).
    rewrite Hname, Hq, messagesIn_app, messagesIn_deliver. cbn [default].
    destruct (isReady input); [|done].
    by rewrite messagesIn_app, messagesIn_addCalls.
Qed.

Lemma X16_first_person_activation_requests_input_witness :
  let sm := SceneManagerOps.register allReady cameraObject SceneManagerOps.initial in
  let sm' := FirstPersonManager.setActiveCamera "Camera" sm in
  activeCameraManager sm' = Some cameraObject
  /\ messagesIn (callsSince sm' (SceneManagerOps.register allReady inputObject sm'))
     = [OnMessage inputObject "Camera" Null].
Proof.
  pose proof (X16_first_person_activation_requests_input "Camera" cameraObject
                (SceneManagerOps.register allReady cameraObject SceneManagerOps.initial)
                eq_refl) as (Hcam & _ & Hrest).
  split; [exact Hcam|].
  exact (proj2 (proj2 Hrest) allReady inputObject eq_refl).
Defined.

(** ** First-person camera: runs of move events and key input *)

Section DragFacts.
Variable toDegrees : Q -> Q.

Lemma onMoveEvent_frame (deltaX deltaY : Q) (camera : PerspectiveCamera) :
  let camera' := FirstPerson.onMoveEvent toDegrees deltaX deltaY camera in
  fov camera' = fov camera /\ aspect camera' = aspect camera
  /\ position camera' = position camera
  /\ Euler.z (rotation camera') = Euler.z (rotation camera)
  /\ Euler.y (rotation camera') = (Euler.y (rotation camera) - deltaX)%Q.
Proof.
  unfold FirstPerson.onMoveEvent. by destruct (FirstPerson.pitchAllowed _).
Qed.

Lemma drag_frame (moves : list (Q * Q)) (camera : PerspectiveCamera) :
  let camera' := FirstPerson.drag toDegrees moves camera in
  fov camera' = fov camera /\ aspect camera' = aspect camera
  /\ position camera' = position camera
  /\ Euler.z (rotation camera') = Euler.z (rotation camera)
  /\ Euler.y (rotation camera') = yawAfter moves (Euler.y (rotation camera)).
Proof.
  unfold FirstPerson.drag, yawAfter. revert camera.
  induction moves as [|[dx dy] moves IH]; intros camera; cbn [foldl fst snd].
  - done.
  - destruct (IH (FirstPerson.onMoveEvent toDegrees dx dy camera))
      as (Hf & Ha & Hp & Hz & Hy).
    destruct (onMoveEvent_frame dx dy camera) as (Hf' & Ha' & Hp' & Hz' & Hy').
    cbn zeta in *.
    split; [congruence|]. split; [congruence|]. split; [congruence|].
    split; [congruence|]. by rewrite Hy, Hy'.
Qed.
End DragFacts.

(** X17. After any run of cursor-drag move events the yaw is the initial
    yaw with each horizontal displacement subtracted in turn, oldest
    first: it depends neither on the vertical displacements nor on which
    pitch changes were rejected, nor on the conversion to degrees.  The
    position, the field of view, the aspect ratio and the roll are never
    changed by a drag. *)
Theorem X17_drag_subtracts_each_deltaX_in_turn
    (toDegrees : Q -> Q) (moves : list (Q * Q)) (camera : PerspectiveCamera) :
  let camera' := FirstPerson.drag toDegrees moves camera in
  Euler.y (rotation camera') = yawAfter moves (Euler.y (rotation camera))
  /\ position camera' = position camera
  /\ fov camera' = fov camera
  /\ aspect camera' = aspect camera
  /\ Euler.z (rotation camera') = Euler.z (rotation camera).
Proof.
  intros camera'. destruct (drag_frame toDegrees moves camera) as (Hf & Ha & Hp & Hz & Hy).
  by repeat split.
Qed.

Section KeyFacts.
Variable getWorldDirection : PerspectiveCamera -> Vector3.t.
Variable cross addVectors subtractVectors : Vector3.t -> Vector3.t -> Vector3.t.

Lemma setPosition_eta (v : Vector3.t) (camera : PerspectiveCamera) :
  position (FirstPersonManager.setPosition v camera) = v.
Proof. by destruct v. Qed.
End KeyFacts.

(** X18. Key input never changes the rotation, the field of view or the
    aspect ratio of the camera, whatever keys are pressed; with none of
    w, s, a, d pressed it changes nothing; with w alone the camera moves
    by a tenth of its view direction. *)
Theorem X18_key_input_moves_position_only
    (getWorldDirection : PerspectiveCamera -> Vector3.t)
    (cross addVectors subtractVectors : Vector3.t -> Vector3.t -> Vector3.t)
    (keyMap : gmap string unit) (camera : PerspectiveCamera) :
  let camera' := FirstPersonManager.onKeyinput getWorldDirection cross addVectors
                   subtractVectors keyMap camera in
  rotation camera' = rotation camera
  /\ fov camera' = fov camera
  /\ aspect camera' = aspect camera
  /\ (keyMap !! "w" = None -> keyMap !! "s" = None ->
      keyMap !! "a" = None -> keyMap !! "d" = None -> camera' = camera)
  /\ (is_Some (keyMap !! "w") -> keyMap !! "s" = None ->
      keyMap !! "a" = None -> keyMap !! "d" = None ->
      position camera'
      = addVectors (position camera)
          (FirstPersonManager.scaled (1 # 10) (getWorldDirection camera))).
Proof.
  intros camera'. unfold camera', FirstPersonManager.onKeyinput, FirstPersonManager.pressed.
  split; [repeat case_bool_decide; done|].
  split; [repeat case_bool_decide; done|].
  split; [repeat case_bool_decide; done|].
  split.
  - intros Hw Hs Ha Hd. rewrite Hw, Hs, Ha, Hd.
    rewrite !bool_decide_eq_false_2 by (by intros [? ?]). done.
  - intros Hw Hs Ha Hd. rewrite Hs, Ha, Hd.
    rewrite (bool_decide_eq_true_2 _ Hw).
    rewrite !bool_decide_eq_false_2 by (by intros [? ?]).
    apply setPosition_eta.
Qed.

(** ** Device coordinates *)

Lemma scaled_lt (a b w : Q) : (0 < w)%Q -> (a < b <-> a / w < b / w)%Q.
Proof.
  intros Hw. unfold Qdiv. pose proof (Qinv_lt_0_compat w Hw) as Hi. split.
  - intros Hab. by apply Qmult_lt_compat_r.
  - intros Hab. by apply (Qmult_lt_r _ _ (/ w)%Q).
Qed.

(** X19. For a window of positive width and height, the conversion to
    device coordinates keeps the order of x and reverses the order of y:
    a pixel further right gets a larger x, a pixel further down a smaller
    y; the top-left pixel goes to (-1, 1).  So two pixels that differ get
    different device coordinates. *)
Theorem X19_device_coordinates_keep_x_order_and_flip_y
    (window : Window) (c1 c2 : Vector2.t) :
  (0 < innerWidth window)%Q ->
  (0 < innerHeight window)%Q ->
  (Vector2.x c1 < Vector2.x c2
   <-> Vector2.x (toNDC window c1) < Vector2.x (toNDC window c2))%Q
  /\ (Vector2.y c1 < Vector2.y c2
      <-> Vector2.y (toNDC window c2) < Vector2.y (toNDC window c1))%Q
  /\ (Vector2.x (toNDC window {| Vector2.x := 0; Vector2.y := 0 |}) == -1)%Q
  /\ (Vector2.y (toNDC window {| Vector2.x := 0; Vector2.y := 0 |}) == 1)%Q.
Proof.
  intros Hw Hh. cbn [toNDC Vector2.x Vector2.y].
  pose proof (scaled_lt (Vector2.x c1) (Vector2.x c2) _ Hw) as Hx.
  pose proof (scaled_lt (Vector2.y c1) (Vector2.y c2) _ Hh) as Hy.
  split; [rewrite Hx; split; intros H; lra|].
  split; [rewrite Hy; split; intros H; lra|].
  split.
  - unfold Qdiv. ring.
  - unfold Qdiv. ring.
Qed.

Lemma X19_device_coordinates_keep_x_order_and_flip_y_witness :
  (Vector2.y (toNDC window800 {| Vector2.x := 10; Vector2.y := 500 |})
   < Vector2.y (toNDC window800 {| Vector2.x := 10; Vector2.y := 20 |}))%Q.
Proof.
  refine (proj1 (proj1 (proj2
            (X19_device_coordinates_keep_x_order_and_flip_y window800
               {| Vector2.x := 10; Vector2.y := 20 |}
               {| Vector2.x := 10; Vector2.y := 500 |} _ _))) _);
    vm_compute; reflexivity.
Defined.

(** ** Scene object groups *)

Section GroupFacts.
Implicit Types (g : Group.t) (child : SceneObject).

Lemma foldl_snoc {A : Type} (l acc : list A) :
  foldl (fun xs x => xs ++ [x]) acc l = acc ++ l.
Proof.
  revert acc. induction l as [|x l IH]; intros acc; cbn.
  - by rewrite app_nil_r.
  - by rewrite IH, <- app_assoc.
Qed.

Lemma group_add_fields child g :
  Group.sceneObjects (Group.add child g) = Group.sceneObjects g ++ [child]
  /\ Group.drawables (Group.add child g) = Group.drawables g ++ getDrawables child
  /\ Group.lights (Group.add child g) = Group.lights g ++ getLights child
  /\ Group.groupName (Group.add child g) = Group.groupName g.
Proof. unfold Group.add. cbn. by rewrite !foldl_snoc. Qed.

Lemma group_isReady_forallb (childReady : Readiness) (children : list SceneObject)
    (ready : bool) :
  foldl (fun r child => r && childReady child) ready children
  = ready && forallb childReady children.
Proof.
  revert ready. induction children as [|c cs IH]; intros ready; cbn.
  - by rewrite andb_true_r.
  - by rewrite IH, andb_assoc.
Qed.

Lemma groupOf_fields (n : string) (children : list SceneObject) :
  Group.groupName (groupOf n children) = n
  /\ Group.sceneObjects (groupOf n children) = children
  /\ Group.drawables (groupOf n children) = children ≫= getDrawables
  /\ Group.lights (groupOf n children) = children ≫= getLights.
Proof.
  unfold groupOf.
  assert (Hgen : forall g,
    Group.groupName (foldl (fun g child => Group.add child g) g children) = Group.groupName g
    /\ Group.sceneObjects (foldl (fun g child => Group.add child g) g children)
       = Group.sceneObjects g ++ children
    /\ Group.drawables (foldl (fun g child => Group.add child g) g children)
       = Group.drawables g ++ (children ≫= getDrawables)
    /\ Group.lights (foldl (fun g child => Group.add child g) g children)
       = Group.lights g ++ (children ≫= getLights)).
  { induction children as [|c cs IH]; intros g; cbn [foldl].
    - cbn. by rewrite !app_nil_r.
    - destruct (IH (Group.add c g)) as (Hn & Hs & Hd & Hl).
      destruct (group_add_fields c g) as (Hs' & Hd' & Hl' & Hn').
      rewrite Hn, Hs, Hd, Hl, Hn', Hs', Hd', Hl'. cbn.
      by rewrite <- !app_assoc. }
  apply (Hgen (Group.create n)).
Qed.
End GroupFacts.

(** X20. A group built by adding children in order caches the
    concatenation of the children's drawables and of their lights, in
    that order, and is ready exactly when all its children are (an empty
    group is ready).  Registered, it is always treated as drawable: it is
    started at once, with the renderer calls of all the cached drawables
    and lights, when every child is ready, and parked without a start hook
    as soon as one child is not. *)
Theorem X20_group_caches_children_and_waits_for_all
    (childReady : Readiness) (n : string) (children : list SceneObject)
    (sm : SceneManager) :
  let g := groupOf n children in
  let o := Group.asSceneObject g in
  let sm' := SceneManagerOps.register (Group.readiness childReady g) o sm in
  getDrawables o = children ≫= getDrawables
  /\ getLights o = children ≫= getLights
  /\ Group.isReady childReady g = forallb childReady children
  /\ (if forallb childReady children
      then callsSince sm sm'
           = addCalls o ++ [OnSceneStart o]
             ++ (SceneManagerOps.deliver o <$> default [] (messageMap sm !! n))
           /\ inactiveObjNameMap sm' = inactiveObjNameMap sm
      else callsSince sm sm'
           = (SceneManagerOps.deliver o <$> default [] (messageMap sm !! n))
           /\ awaiting n sm' = true).
Proof.
  intros g o sm'.
  destruct (groupOf_fields n children) as (Hn & Hs & Hd & Hl). fold g in Hn, Hs, Hd, Hl.
  assert (Hready : Group.isReady childReady g = forallb childReady children).
  { unfold Group.isReady. by rewrite Hs, group_isReady_forallb. }
  assert (Hobs : Group.readiness childReady g o = forallb childReady children).
  { unfold Group.readiness. by rewrite decide_True. }
  assert (Hname : name o = n) by exact Hn.
  split; [exact Hd|]. split; [exact Hl|]. split; [exact Hready|].
  pose proof (register_calls (Group.readiness childReady g) o sm) as Hcalls.
  pose proof (register_inactive (Group.readiness childReady g) o sm) as Hina.
  fold sm' in Hcalls, Hina. rewrite Hobs, Hname in Hcalls. rewrite Hobs, Hname in Hina.
  cbn [isDrawable o Group.asSceneObject] in Hina.
  destruct (forallb childReady children).
  - split; [apply (callsSince_app sm); by rewrite Hcalls, <- app_assoc | exact Hina].
  - split; [by apply (callsSince_app sm)|].
    unfold awaiting, JSMap.has. rewrite Hina. cbn.
    rewrite get_set_eq. by apply bool_decide_eq_true.
Qed.

Example group_with_loading_child_is_parked :
  let g := groupOf "Room" [inputObject; modelObject] in
  let loading := fun o => bool_decide (o = inputObject) in
  let sm := SceneManagerOps.register (Group.readiness loading g)
              (Group.asSceneObject g) sceneWithCamera in
  awaiting "Room" sm = true
  /\ getDrawables (Group.asSceneObject g) = getDrawables modelObject
  /\ callsSince sceneWithCamera sm = [].
Proof. repeat split; reflexivity. Qed.

(** ** Registration followed by unregistration *)

Section RoundTripFacts.
Implicit Types (sm : SceneManager) (o : SceneObject) (rc : RayCast).

Lemma bind_app {A B : Type} (f : A -> list B) (l1 l2 : list A) :
  (l1 ++ l2) ≫= f = (l1 ≫= f) ++ (l2 ≫= f).
Proof. induction l1 as [|x l1 IH]; cbn; [done|]. by rewrite IH, app_assoc. Qed.

Lemma rendererAdded_addCalls o : rendererAdded (addCalls o) = objectsOf o.
Proof.
  unfold rendererAdded, addCalls, objectsOf. rewrite bind_app. f_equal.
  - induction (getDrawables o) as [|d ds IH]; cbn; [done|]. by rewrite IH.
  - induction (getLights o) as [|l ls IH]; cbn; [done|]. by rewrite IH.
Qed.

Lemma rendererRemoved_removeCalls o : rendererRemoved (removeCalls o) = objectsOf o.
Proof.
  unfold rendererRemoved, removeCalls, objectsOf. rewrite bind_app. f_equal.
  - induction (getDrawables o) as [|d ds IH]; cbn; [done|]. by rewrite IH.
  - induction (getLights o) as [|l ls IH]; cbn; [done|]. by rewrite IH.
Qed.

Lemma rendererAdded_deliver o (msgs : list Message) :
  rendererAdded (SceneManagerOps.deliver o <$> msgs) = [].
Proof. induction msgs as [|m msgs IH]; cbn; [done|]. exact IH. Qed.

(** After the loop of [addToScene], the owner is known to the ray caster
    as soon as one drawable is ray-castable. *)
Lemma castAdded_known o rc :
  picked o <> [] -> is_Some (JSMap.get (name o) (raycastObjectMap (castAdded o rc))).
Proof.
  unfold castAdded, picked. revert rc.
  induction (getDrawables o) as [|d ds IH]; intros rc Hsome; [done|].
  cbn [foldl]. rewrite filter_cons in Hsome.
  destruct (isRayCastable d) eqn:Hd.
  - clear IH Hsome.
    assert (Hnow : is_Some (JSMap.get (name o)
                     (raycastObjectMap (RayCastOps.add (name o) (drawable_object d) rc))))
      by (rewrite add_registers; eauto).
    revert Hnow. generalize (RayCastOps.add (name o) (drawable_object d) rc).
    induction ds as [|d' ds IH]; intros rc' Hnow; [done|].
    cbn [foldl]. apply IH. destruct (isRayCastable d'); [|done].
    rewrite add_registers. eauto.
  - rewrite decide_False in Hsome by (by intros ?). by apply IH.
Qed.

(** After the loop of [removeFromScene] on a known owner with a
    ray-castable drawable, the array of the ray caster is spoilt. *)
Lemma castRemoved_spoilt o rc :
  picked o <> [] ->
  is_Some (JSMap.get (name o) (raycastObjectMap rc)) ->
  spoilt (castRemoved o rc).
Proof.
  unfold castRemoved, picked. revert rc.
  induction (getDrawables o) as [|d ds IH]; intros rc Hsome [objects Hget]; [done|].
  cbn [foldl]. rewrite filter_cons in Hsome.
  destruct (isRayCastable d) eqn:Hd.
  - clear IH Hsome.
    pose proof (spoilt_remove_known rc (name o) objects Hget) as Hs.
    revert Hs. generalize (RayCastOps.remove (name o) rc).
    induction ds as [|d' ds IH]; intros rc' Hs; [done|].
    cbn [foldl]. apply IH. destruct (isRayCastable d'); [|done].
    exact (spoilt_step rc' (RayRemove (name o)) Hs).
  - rewrite decide_False in Hsome by (by intros ?). apply IH; eauto.
Qed.
End RoundTripFacts.

(** X21. [unregister] asks the renderer to remove the objects of the
    scene object, drawables first, then lights: exactly the objects, in
    the order, that [register] asked it to add when the object was ready.
    When the object was parked instead, nothing had been added, and
    [unregister] still asks for the removal of all its objects. *)
Theorem X21_unregister_removes_what_register_added
    (isReady : Readiness) (o : SceneObject) (sm : SceneManager) :
  let sm1 := SceneManagerOps.register isReady o sm in
  let sm2 := SceneManagerOps.unregister (name o) sm1 in
  rendererAdded (callsSince sm sm1) = (if isReady o then objectsOf o else [])
  /\ rendererRemoved (callsSince sm1 sm2) = objectsOf o
  /\ callsSince sm1 sm2 = removeCalls o ++ [OnSceneEnd o].
Proof.
  intros sm1 sm2.
  assert (Hget : JSMap.get (name o) (sceneObjectMap sm1) = Some o)
    by (unfold sm1; rewrite register_sceneObjectMap; apply get_set_eq).
  assert (Hcalls : callsSince sm1 sm2 = removeCalls o ++ [OnSceneEnd o])
    by (apply (callsSince_app sm1); unfold sm2; by rewrite (unregister_known _ o sm1 Hget)).
  split; [|split; [|exact Hcalls]].
  - rewrite (callsSince_app sm sm1 _ (register_calls isReady o sm)).
    unfold rendererAdded. rewrite bind_app. fold (rendererAdded
      (SceneManagerOps.deliver o <$> default [] (messageMap sm !! name o))).
    rewrite rendererAdded_deliver, app_nil_r.
    destruct (isReady o); [|done].
    rewrite bind_app. fold (rendererAdded (addCalls o)).
    rewrite rendererAdded_addCalls. cbn. by rewrite app_nil_r.
  - rewrite Hcalls. unfold rendererRemoved. rewrite bind_app.
    fold (rendererRemoved (removeCalls o)). rewrite rendererRemoved_removeCalls.
    cbn. by rewrite app_nil_r.
Qed.

(** X22. Registering a ready object that has a ray-castable drawable and
    unregistering it leaves the ray caster with an array that is not flat
    (it holds owners' arrays), and so it stays whatever is added or
    removed afterwards. *)
Theorem X22_unregister_spoils_the_pickable_array
    (isReady : Readiness) (o : SceneObject) (sm : SceneManager) (ops : list RayOp) :
  isReady o = true ->
  picked o <> [] ->
  let sm2 := SceneManagerOps.unregister (name o) (SceneManagerOps.register isReady o sm) in
  RayCastOps.isFlat (raycaster sm2) = false
  /\ RayCastOps.isFlat (rayRun ops (raycaster sm2)) = false.
Proof.
  intros Hready Hpicked sm2.
  assert (Hget : JSMap.get (name o)
                   (sceneObjectMap (SceneManagerOps.register isReady o sm)) = Some o)
    by (rewrite register_sceneObjectMap; apply get_set_eq).
  assert (Hs : spoilt (raycaster sm2)).
  { unfold sm2. rewrite (unregister_known _ o _ Hget). cbn.
    rewrite register_raycaster, Hready.
    apply castRemoved_spoilt; [done|]. by apply castAdded_known. }
  split.
  - destruct Hs as [[k Hk] _]. by eapply not_flat_with_array.
  - destruct (spoilt_run ops _ Hs) as [[k Hk] _]. by eapply not_flat_with_array.
Qed.

Lemma X22_unregister_spoils_the_pickable_array_witness :
  RayCastOps.isFlat
    (raycaster (SceneManagerOps.unregister "Model"
                  (SceneManagerOps.register allReady modelObject sceneWithCamera)))
  = false.
Proof.
  refine (proj1 (X22_unregister_spoils_the_pickable_array allReady modelObject
                   sceneWithCamera [] eq_refl _)).
  vm_compute. intros H. discriminate H.
Defined.
